(** * Job Analysis Interview App: a shallow embedding of [app.py]

    The development follows the source file top to bottom: Python
    strings and the string built-ins the program calls, the coverage
    tracker ([update_coverage]), the response post-processing inside
    [call_llm], the synthesis step ([generate_synthesis]) and the
    Streamlit script [main] as a function from a session state and one
    widget event to the next session state. *)

From Stdlib Require Import ZArith NArith Lia List Bool Ascii String DecimalString.
From stdpp Require Import base option list.

Set Warnings "-register-all".
Local Open Scope nat_scope.

(** ** Python strings

    A Python [str] is a sequence of Unicode code points; indexing,
    slicing and [len] count code points. *)

Module Py.

Abbreviation str := (list N).

(** Literals of the source are written as Rocq strings when they are
    ASCII and contain no double quote. *)
Definition lit (s : string) : str := map N_of_ascii (list_ascii_of_string s).
Arguments lit s%_string.

Definition truthy (s : str) : bool :=
  match s with [] => false | _ => true end.

(** [starts_with sub text]: [text.startswith(sub)]. *)
Fixpoint starts_with (sub text : str) : bool :=
  match sub, text with
  | [], _ => true
  | _ :: _, [] => false
  | a :: sub', b :: text' => N.eqb a b && starts_with sub' text'
  end.

(** [index_of sub text]: the least index at which [sub] occurs. *)
Fixpoint index_of (sub text : str) : option nat :=
  if starts_with sub text then Some 0%nat
  else match text with
       | [] => None
       | _ :: text' => S <$> index_of sub text'
       end.

(** [rindex_of sub text]: the greatest index at which [sub] occurs. *)
Fixpoint rindex_of (sub text : str) : option nat :=
  match text with
  | [] => if starts_with sub [] then Some 0%nat else None
  | _ :: text' =>
      match rindex_of sub text' with
      | Some i => Some (S i)
      | None => if starts_with sub text then Some 0%nat else None
      end
  end.

(** [sub in text] *)
Definition contains (sub text : str) : bool :=
  match index_of sub text with Some _ => true | None => false end.

(** [text.find(sub)] and [text.rfind(sub)]: an index, or -1. *)
Definition find (text sub : str) : Z :=
  match index_of sub text with Some i => Z.of_nat i | None => (-1)%Z end.

Definition rfind (text sub : str) : Z :=
  match rindex_of sub text with Some i => Z.of_nat i | None => (-1)%Z end.

(** [text.split(sep)[0]] for a non-empty [sep]: the part of [text]
    before the first occurrence of [sep], the whole of [text] when there
    is none. *)
Definition split_head (text sep : str) : str :=
  match index_of sep text with Some i => take i text | None => text end.

(** [c.isspace()] for one code point: the ASCII table of CPython
    ([\t \n \v \f \r], [0x1c .. 0x1f], space) and the code points
    of Unicode with the White_Space property. *)
Definition isspace (c : N) : bool :=
  ((9 <=? c) && (c <=? 13) || (28 <=? c) && (c <=? 32)
   || (c =? 133) || (c =? 160) || (c =? 5760)
   || (8192 <=? c) && (c <=? 8202)
   || (c =? 8232) || (c =? 8233) || (c =? 8239) || (c =? 8287)
   || (c =? 12288))%N.

Fixpoint lstrip (s : str) : str :=
  match s with
  | c :: s' => if isspace c then lstrip s' else s
  | [] => []
  end.

Definition rstrip (s : str) : str := rev (lstrip (rev s)).

(** [s.strip()] *)
Definition strip (s : str) : str := rstrip (lstrip s).

(** A slice bound [i] of [s[lo:hi]] clamped the way Python does it:
    a negative bound counts from the end. *)
Definition clamp (len i : Z) : nat :=
  Z.to_nat (if (i <? 0)%Z then Z.max 0 (len + i) else Z.min i len).

(** [s[lo:hi]] *)
Definition slice {A} (s : list A) (lo hi : Z) : list A :=
  let len := Z.of_nat (length s) in
  let lo' := clamp len lo in
  let hi' := clamp len hi in
  take (hi' - lo') (drop lo' s).

(** [s[-1]] as a one-character string, for a non-empty [s]. *)
Definition last_char (s : str) : str :=
  match rev s with c :: _ => [c] | [] => [] end.

(** [str(n)] for a non-negative int. *)
Definition of_nat (n : nat) : str := lit (NilEmpty.string_of_uint (Nat.to_uint n)).

(** [sep.join(parts)] *)
Fixpoint join (sep : str) (parts : list str) : str :=
  match parts with
  | [] => []
  | [p] => p
  | p :: rest => p ++ sep ++ join sep rest
  end.

End Py.

Import Py.

(** [litq] is [lit] for literals that contain double quotes: the
    literal is written with a backquote wherever the source has a
    double quote. *)
Definition litq (s : string) : str :=
  map (fun c => if (c =? 96)%N then 34%N else c) (lit s).
Arguments litq s%_string.

Definition nl : str := [10%N].

(** ** Data of the program *)

Inductive role := user | assistant.

Global Instance role_eq_dec : EqDecision role.
Proof. solve_decision. Defined.

(** A transcript entry, [{"role": ..., "content": ...}]. *)
Record message := Message { msg_role : role; content : str }.

(** The inner dict of a coverage area, [{"name": ..., "covered": ...}]. *)
Record area := Area { name : str; covered : bool }.

(** A Python dict with string keys: the items in insertion order. *)
Abbreviation dict V := (list (str * V)).

Fixpoint dict_get {V} (d : dict V) (k : str) : option V :=
  match d with
  | [] => None
  | (k', v) :: d' => if decide (k' = k) then Some v else dict_get d' k
  end.

(** [d[k] = f(d[k])] for a key that is present. *)
Fixpoint dict_alter {V} (f : V -> V) (k : str) (d : dict V) : dict V :=
  match d with
  | [] => []
  | (k', v) :: d' =>
      if decide (k' = k) then (k', f v) :: d' else (k', v) :: dict_alter f k d'
  end.

Definition dict_values {V} (d : dict V) : list V := map snd d.

(** JSON values; a number keeps its literal. *)
Inductive json :=
| JNull
| JBool (b : bool)
| JNum (literal : str)
| JStr (s : str)
| JArr (items : list json)
| JObj (fields : list (str * json)).

(** What a call that may raise gives: its value, or the exception, of
    which the program looks at the class (is it a [JSONDecodeError]?)
    and at [str(e)]. *)
Record exn := Exn { is_json_decode_error : bool; description : str }.

Inductive outcome (A : Type) :=
| Returned (a : A)
| Raised (e : exn).
Arguments Returned {A} a.
Arguments Raised {A} e.

(** A call of [client.messages.create]. *)
Record request := Request {
  req_model : str;
  req_max_tokens : nat;
  req_system : str;
  req_messages : list message }.

(** [st.session_state], once the defaults are filled in. *)
Record session := Session {
  messages : list message;
  coverage : dict area;
  interview_complete : bool;
  ksao_result : option (dict json);
  initialized : bool;
  job_context : str;
  job_title : str;
  setup_complete : bool }.

(** What the operator did that made Streamlit run the script. *)
Inductive event :=
| NoEvent
| StartInterview (title context : str)
| FinishInterview
| Reset
| ChatInput (prompt : str).

(** One execution of the script: the session state it leaves ([None]
    when every key has been deleted), the number of calls made to the
    generation service so far, the warnings shown, whether it ended in
    [st.rerun()], and the key of the [KeyError] that stopped it, if
    one did. *)
Record run := Run {
  run_state : option session;
  run_calls : nat;
  run_warnings : list str;
  run_rerun : bool;
  run_key_error : option str }.

(** ** Constants of [app.py] *)

Definition MODEL : str := lit "claude-sonnet-4-20250514".
Definition TARGET_EXCHANGES : nat := 7.

Definition INTERVIEWER_SYSTEM_PROMPT
  (job_title job_context_section coverage exchange_count target_exchanges : str) : str :=
  join nl [
    litq "You are an expert I/O psychologist conducting a job analysis interview for `"
      ++ job_title ++ litq "`.";
    [];
    job_context_section;
    [];
    lit "RULES:";
    lit "- Ask ONE question at a time";
    lit "- Keep responses to 2-3 sentences plus your question";
    lit "- Probe vague answers by asking for specific examples";
    lit "- Acknowledge good answers briefly, then move on";
    lit "- NEVER output coverage status, progress tracking, or any meta-information in your response";
    lit "- NEVER use bullet points or lists in your response";
    lit "- Just respond conversationally as an interviewer would";
    [];
    lit "INTERNAL TRACKING (do NOT include any of this in your response):";
    lit "Coverage: " ++ coverage;
    lit "Progress: " ++ exchange_count ++ lit "/" ++ target_exchanges ++ lit " exchanges";
    [];
    lit "If coverage is good and you've hit the target, suggest wrapping up conversationally."
  ].

Definition SYNTHESIS_PROMPT (job_title transcript : str) : str :=
  join nl [
    litq "Based on this interview for `" ++ job_title ++ litq "`, create a KSAO analysis.";
    [];
    lit "TRANSCRIPT:";
    transcript;
    [];
    lit "Return ONLY valid JSON with this structure:";
    litq "{`job_title`: `" ++ job_title
      ++ litq "`, `role_summary`: `2-3 sentences`, `knowledge`: [{`item`: `...`, `importance`: `critical|important|helpful`, `evidence`: `quote from interview`}], `skills`: [{`item`: `...`, `importance`: `...`, `evidence`: `...`}], `abilities`: [{`item`: `...`, `importance`: `...`, `evidence`: `...`}], `other_characteristics`: [{`item`: `...`, `importance`: `...`, `evidence`: `...`}], `key_tasks`: [`...`], `gaps`: [`areas needing follow-up`]}"
  ].

Definition COVERAGE_AREAS : dict area := [
  (lit "core_responsibilities", Area (lit "Core Responsibilities") false);
  (lit "technical_skills", Area (lit "Technical Skills") false);
  (lit "soft_skills", Area (lit "Interpersonal Skills") false);
  (lit "knowledge_areas", Area (lit "Required Knowledge") false);
  (lit "success_factors", Area (lit "Top Performer Traits") false);
  (lit "challenges", Area (lit "Challenges") false);
  (lit "critical_incidents", Area (lit "Specific Examples") false)
].

(** The [checks] table of [update_coverage]. *)
Definition checks : list (str * list str) := [
  (lit "core_responsibilities",
     [lit "day-to-day"; lit "typical"; lit "responsibilities"; lit "tasks"; lit "week"]);
  (lit "technical_skills",
     [lit "python"; lit "sql"; lit "tool"; lit "software"; lit "excel"; lit "code"]);
  (lit "soft_skills",
     [lit "stakeholder"; lit "communicate"; lit "team"; lit "collaborate"; lit "meeting"]);
  (lit "knowledge_areas",
     [lit "know"; lit "understand"; lit "learn"; lit "background"; lit "domain"]);
  (lit "success_factors",
     [lit "great"; lit "top performer"; lit "best"; lit "successful"; lit "distinguish"]);
  (lit "challenges",
     [lit "challenge"; lit "difficult"; lit "hard"; lit "frustrat"; lit "problem"]);
  (lit "critical_incidents",
     [lit "example"; lit "recently"; lit "once"; lit "specific"; lit "instance"])
].

(** The leakage markers of [call_llm]; the last three are the code
    points U+25D0, U+25CB and U+2713. *)
Definition MARKERS : list str := [
  lit "COVERAGE"; lit "PROGRESS:"; lit "INTERNAL"; lit "exchanges";
  [9680%N]; [9675%N]; [10003%N]
].

Definition TERMINALS : str := lit ".?!".

Definition FALLBACK : str := lit "Could you tell me more about that?".

(** ** The program

    Three things the program uses lie outside [app.py] and are taken as
    parameters: the Unicode tables behind [str.lower], [json.loads], and
    the generation service behind [client.messages.create]. *)

Section App.

(** [lower_table before c after]: what [str.lower] puts for the
    non-ASCII code point [c] standing between [before] and [after]
    (one code point may lower-case to several, and capital sigma
    looks at its neighbours). *)
Variable lower_table : str -> N -> str -> str.

(** [json.loads] on a text whose first character is an opening brace:
    a dict, or an exception. *)
Variable json_loads : str -> outcome (dict json).

(** [client.messages.create(...)] followed by [resp.content[0].text]:
    the reply to a request, which may depend on how many calls were
    made before it. *)
Variable client : nat -> request -> outcome str.

Definition ascii_lower (c : N) : N :=
  if ((65 <=? c) && (c <=? 90))%N then (c + 32)%N else c.

Fixpoint lower_from (before s : str) : str :=
  match s with
  | [] => []
  | c :: rest =>
      (if (c <? 128)%N then [ascii_lower c] else lower_table before c rest)
        ++ lower_from (before ++ [c]) rest
  end.

(** [s.lower()] *)
Definition lower (s : str) : str := lower_from [] s.

(** *** [format_coverage] *)

Definition format_coverage (coverage : dict area) : str :=
  let explored := map name (List.filter covered (dict_values coverage)) in
  let not_covered :=
    map name (List.filter (fun a => negb (covered a)) (dict_values coverage)) in
  lit "Explored: "
    ++ (match explored with [] => lit "None yet" | _ => join (lit ", ") explored end)
    ++ lit ". Still need: "
    ++ (match not_covered with [] => lit "All covered" | _ => join (lit ", ") not_covered end)
    ++ lit ".".

(** *** [update_coverage]

    The loop over [checks] writes into the dict it was given; a key
    of [checks] that the dict lacks raises [KeyError] and leaves the
    writes made so far. The result is the dict and the missing key, if
    the loop stopped on one. *)

Definition mark_covered (a : area) : area := Area (name a) true.

Definition any_in (words : list str) (m : str) : bool :=
  existsb (fun w => contains w m) words.

Fixpoint coverage_loop (m : str) (cs : list (str * list str)) (coverage : dict area)
  : dict area * option str :=
  match cs with
  | [] => (coverage, None)
  | (key, words) :: cs' =>
      if any_in words m then
        match dict_get coverage key with
        | Some _ => coverage_loop m cs' (dict_alter mark_covered key coverage)
        | None => (coverage, Some key)
        end
      else coverage_loop m cs' coverage
  end.

Definition update_coverage (msg : str) (coverage : dict area) : dict area * option str :=
  let m := lower msg in
  coverage_loop m checks coverage.

(** *** [call_llm] *)

(** Lines 78-80: the loop over the markers. *)
Definition strip_marker (text marker : str) : str :=
  if contains marker text then strip (split_head text marker) else text.

Definition strip_markers (markers : list str) (text : str) : str :=
  fold_left strip_marker markers text.

(** Lines 83-86: the trailing incomplete sentence. *)
Definition last_period (text : str) : Z :=
  Z.max (Z.max (rfind text (lit ".")) (rfind text (lit "?"))) (rfind text (lit "!")).

Definition drop_incomplete (text : str) : str :=
  if truthy text && negb (contains (last_char text) TERMINALS) then
    if (0 <? last_period text)%Z then slice text 0 (last_period text + 1) else text
  else text.

(** Lines 78-88: what [call_llm] returns for the generated [text]. *)
Definition sanitize (text : str) : str :=
  let text := drop_incomplete (strip_markers MARKERS text) in
  if truthy text then text else FALLBACK.

(** [call_llm] makes one call, the [calls]-th, and returns its string
    together with the new number of calls. *)
Definition call_llm (calls : nat) (messages : list message) (system_prompt : str)
  : str * nat :=
  match client calls (Request MODEL 500 system_prompt messages) with
  | Returned text => (sanitize text, S calls)
  | Raised e => (lit "Technical issue: " ++ slice (description e) 0 50, S calls)
  end.

(** *** [generate_synthesis] *)

Definition transcript_line (m : message) : str :=
  (if decide (msg_role m = user) then lit "SME" else lit "Interviewer")
    ++ lit ": " ++ content m.

Definition on_exception (e : exn) : dict json :=
  if is_json_decode_error e
  then [(lit "error", JStr (lit "JSON parse error: " ++ description e))]
  else [(lit "error", JStr (description e))].

(** Lines 99-103: from the generated [text] to the returned dict. *)
Definition extract_document (text : str) : dict json :=
  let start := find text (lit "{") in
  let end_ := (rfind text (lit "}") + 1)%Z in
  if (0 <=? start)%Z && (start <? end_)%Z then
    match json_loads (slice text start end_) with
    | Returned doc => doc
    | Raised e => on_exception e
    end
  else [(lit "error", JStr (lit "No JSON found")); (lit "raw", JStr text)].

Definition synthesis_request (messages : list message) (job_title : str) : request :=
  let transcript := join nl (map transcript_line messages) in
  Request MODEL 2000 (lit "Output valid JSON only, no markdown.")
    [Message user (SYNTHESIS_PROMPT job_title transcript)].

Definition generate_synthesis (calls : nat) (messages : list message) (job_title : str)
  : dict json * nat :=
  match client calls (synthesis_request messages job_title) with
  | Returned text => (extract_document text, S calls)
  | Raised e => (on_exception e, S calls)
  end.

(** *** [get_intro] *)

Definition get_intro (job_title : str) (has_context : bool) : str :=
  if has_context then
    lit "Hi! I'm here to learn about the **" ++ job_title ++ lit "** role."
      ++ nl ++ nl
      ++ lit "I've been given a formal description, but I want to understand how YOUR experience compares "
      ++ [8212%N] ++ lit " where it aligns, differs, and what's missing."
      ++ nl ++ nl
      ++ lit "**How would YOU describe the core purpose of a " ++ job_title ++ lit "?**"
  else
    lit "Hi! I'm here to learn about the **" ++ job_title
      ++ lit "** role through a brief conversation."
      ++ nl ++ nl
      ++ lit "**Can you give me a high-level overview of what a " ++ job_title
      ++ lit " actually does?**".

(** *** [main] *)

Definition defaults : session :=
  Session [] COVERAGE_AREAS false None false [] [] false.

(** [len([m for m in messages if m["role"] == "user"])] *)
Definition exchanges (ms : list message) : nat :=
  length (List.filter (fun m => bool_decide (msg_role m = user)) ms).

Definition push (m : message) (st : session) : session :=
  Session (messages st ++ [m]) (coverage st) (interview_complete st) (ksao_result st)
    (initialized st) (job_context st) (job_title st) (setup_complete st).

Definition with_coverage (c : dict area) (st : session) : session :=
  Session (messages st) c (interview_complete st) (ksao_result st)
    (initialized st) (job_context st) (job_title st) (setup_complete st).

Definition with_setup (title context : str) (st : session) : session :=
  Session (messages st) (coverage st) (interview_complete st) (ksao_result st)
    (initialized st) context title true.

Definition with_initialized (st : session) : session :=
  Session (messages st) (coverage st) (interview_complete st) (ksao_result st)
    true (job_context st) (job_title st) (setup_complete st).

Definition with_result (r : dict json) (st : session) : session :=
  Session (messages st) (coverage st) true (Some r)
    (initialized st) (job_context st) (job_title st) (setup_complete st).

(** Lines 210-226: the chat input gave [prompt]. *)
Definition chat_turn (st : session) (calls : nat) (warnings : list str) (prompt : str) : run :=
  let st := push (Message user prompt) st in
  match update_coverage prompt (coverage st) with
  | (c, Some key) => Run (Some (with_coverage c st)) calls warnings false (Some key)
  | (c, None) =>
      let st := with_coverage c st in
      let ctx :=
        if truthy (job_context st)
        then lit "FORMAL DESCRIPTION:" ++ nl ++ job_context st ++ nl ++ nl
               ++ lit "Compare against this."
        else [] in
      let system :=
        INTERVIEWER_SYSTEM_PROMPT (job_title st) ctx (format_coverage (coverage st))
          (of_nat (exchanges (messages st))) (of_nat TARGET_EXCHANGES) in
      let '(response, calls) := call_llm calls (messages st) system in
      Run (Some (push (Message assistant response) st)) calls warnings false None
  end.

(** Lines 175-226: what follows the sidebar. *)
Definition below_sidebar (st : session) (ev : event) (calls : nat) (warnings : list str)
  : run :=
  if interview_complete st
     && match ksao_result st with Some r => negb (bool_decide (r = [])) | None => false end
  then Run (Some st) calls warnings false None
  else
    match ev with
    | ChatInput prompt =>
        if truthy prompt then chat_turn st calls warnings prompt
        else Run (Some st) calls warnings false None
    | _ => Run (Some st) calls warnings false None
    end.

(** One execution of the script on the event [ev]. *)
Definition main (state : option session) (ev : event) (calls : nat) : run :=
  let st := default defaults state in
  if negb (setup_complete st) then
    match ev with
    | StartInterview title context =>
        if truthy (strip title)
        then Run (Some (with_setup (strip title) context st)) calls [] true None
        else Run (Some st) calls [lit "Please enter a job title."] false None
    | _ => Run (Some st) calls [] false None
    end
  else
    let st :=
      if initialized st then st
      else with_initialized
             (push (Message assistant (get_intro (job_title st) (truthy (job_context st)))) st) in
    match ev with
    | FinishInterview =>
        if (exchanges (messages st) <? 3)%nat
        then below_sidebar st ev calls [lit "Complete at least 3 exchanges."]
        else
          let '(r, calls) := generate_synthesis calls (messages st) (job_title st) in
          Run (Some (with_result r st)) calls [] true None
    | Reset => Run None calls [] true None
    | _ => below_sidebar st ev calls []
    end.

(** What the operator's action does to the session: the script runs on
    the event, and once more without an event when it ended in
    [st.rerun()]. *)
Definition interact (state : option session) (ev : event) (calls : nat) : run :=
  let r := main state ev calls in
  if run_rerun r then main (run_state r) NoEvent (run_calls r) else r.

(** The coverage dict after a sequence of user messages. *)
Definition feed (msgs : list str) (coverage : dict area) : dict area :=
  fold_left (fun c msg => fst (update_coverage msg c)) msgs coverage.

End App.

(** ** Notions used to state the properties *)

(** [sub] stands in [text] at index [i]. *)
Definition occurs_at (sub text : str) (i : nat) : Prop :=
  ∀ k c, sub !! k = Some c → text !! (i + k) = Some c.

(** A string of whitespace only, and a non-empty string free of
    whitespace. *)
Definition blank (ws : str) : Prop := Forall (λ c, isspace c = true) ws.

Definition clean (m : str) : bool :=
  truthy m && forallb (λ c, negb (isspace c)) m.

Definition opt_min (a b : option nat) : option nat :=
  match a, b with
  | Some x, Some y => Some (x `min` y)
  | Some x, None => Some x
  | None, _ => b
  end.

(** The least index at which any of [markers] occurs in [text]. *)
Definition earliest (markers : list str) (text : str) : option nat :=
  fold_left (λ acc m, opt_min acc (index_of m text)) markers None.

(** The first character of [m1] appears in [m2] after the first
    position: an occurrence of [m1] can then begin inside one of [m2]. *)
Definition head_in_tail (m1 m2 : str) : bool :=
  match m1, m2 with
  | c :: _, _ :: t => existsb (N.eqb c) t
  | _, _ => false
  end.

(** No marker is empty or contains whitespace, and no marker can begin
    inside a marker that comes later in the list. *)
Fixpoint compatible (markers : list str) : bool :=
  match markers with
  | [] => true
  | m :: rest =>
      clean m && forallb (λ m2, negb (head_in_tail m m2)) rest && compatible rest
  end.

Definition is_terminal (c : N) : bool := ((c =? 46) || (c =? 63) || (c =? 33))%N.

Definition ends_in_terminal (text : str) : bool :=
  match last text with Some c => is_terminal c | None => false end.

(** The greatest index of [s] whose character satisfies [P]. *)
Fixpoint last_where (P : N → bool) (s : str) : option nat :=
  match s with
  | [] => None
  | c :: s' =>
      match last_where P s' with
      | Some i => Some (S i)
      | None => if P c then Some 0 else None
      end
  end.

Definition last_terminal (text : str) : option nat := last_where is_terminal text.

Definition opt_Z (o : option nat) : Z :=
  match o with Some i => Z.of_nat i | None => (-1)%Z end.

Definition INTERNAL : str := lit "INTERNAL".

(** *** The sanitizer as the specification words it

    Section 4.3: truncate at the first occurrence of any marker; then,
    if the text does not end in terminal punctuation, truncate back to
    the last terminal punctuation mark found; an empty result is
    replaced by the fallback question. *)

Definition spec_truncate_at_marker (text : str) : str :=
  match earliest MARKERS text with
  | Some p => take p text
  | None => text
  end.

Definition spec_truncate_sentence (text : str) : str :=
  if ends_in_terminal text then text
  else match last_terminal text with
       | Some i => take (S i) text
       | None => text
       end.

Definition spec_sanitize (text : str) : str :=
  let t := spec_truncate_sentence (spec_truncate_at_marker text) in
  if truthy t then t else FALLBACK.

(** The same with the whitespace stripped from a text that was cut at
    a marker. *)
Definition cut_and_strip (text : str) : str :=
  match earliest MARKERS text with
  | Some p => strip (take p text)
  | None => text
  end.

Definition amended_sanitize (text : str) : str :=
  let t := spec_truncate_sentence (cut_and_strip text) in
  if truthy t then t else FALLBACK.

(** *** Coverage *)

(** [coverage[key]["covered"]], false for a key that is absent. *)
Definition is_covered (coverage : dict area) (key : str) : bool :=
  match dict_get coverage key with Some a => covered a | None => false end.

(** Some entry of [cs] for [key] has a keyword that occurs in [m]. *)
Definition hit (m : str) (cs : list (str * list str)) (key : str) : bool :=
  existsb (λ c, bool_decide (c.1 = key) && any_in c.2 m) cs.

(** The dict has every area that [checks] names. *)
Definition has_areas (coverage : dict area) : Prop :=
  Forall (λ c, is_Some (dict_get coverage c.1)) checks.

(** *** Notions for the further properties *)

(** What [update_coverage] does to one item of the dict when no key is
    missing. *)
Definition mark_hit (m : str) (cs : list (str * list str)) (item : str * area)
  : str * area :=
  (item.1, if hit m cs item.1 then mark_covered item.2 else item.2).

Definition is_ascii (s : str) : Prop := Forall (λ c, (c < 128)%N) s.

(** The results block of [main] (lines 181-207) is skipped: the chat
    input is reached. *)
Definition interviewing (st : session) : Prop :=
  interview_complete st = false ∨ ksao_result st = None ∨ ksao_result st = Some [].

(** What every session state met in a run of the application satisfies:
    the seven areas with their names, initialisation done as soon as
    the setup is, a synthesis result exactly when the interview is
    complete, and a transcript that is empty before the setup and
    afterwards opens with the introduction followed by one assistant
    message per user message. *)
Definition well_formed (st : session) : Prop :=
  (coverage st).*1 = COVERAGE_AREAS.*1
  ∧ map (λ item, name item.2) (coverage st) = map (λ item, name item.2) COVERAGE_AREAS
  ∧ initialized st = setup_complete st
  ∧ (interview_complete st = true ↔ is_Some (ksao_result st))
  ∧ if setup_complete st
    then job_title st ≠ []
         ∧ messages st !! 0
           = Some (Message assistant (get_intro (job_title st) (truthy (job_context st))))
         ∧ length (messages st) = 1 + 2 * exchanges (messages st)
    else messages st = [].

Section Sessions.
Variable lower_table : str → N → str → str.
Variable json_loads : str → outcome (dict json).
Variable client : nat → request → outcome str.

(** The runs of the script on a sequence of operator actions. *)
Fixpoint play (state : option session) (calls : nat) (evs : list event) : list run :=
  match evs with
  | [] => []
  | ev :: evs' =>
      let r := interact lower_table json_loads client state ev calls in
      r :: play (run_state r) (run_calls r) evs'
  end.
End Sessions.

(** ** A sample environment

    Concrete stand-ins for the three parameters of the program, on which
    the program can be run: lower-casing that leaves non-ASCII code
    points as they are, a generation service that answers from a script,
    and a decoder for the JSON texts made of objects, arrays, strings
    without escapes, integers and the three literals. *)

Definition plain_lower_table : str → N → str → str := λ _ c _, [c].

Definition scripted (replies : list (outcome str)) : nat → request → outcome str :=
  λ n _, default (Raised (Exn false (lit "Connection error."))) (replies !! n).

Definition json_space (c : N) : bool :=
  ((c =? 32) || (c =? 9) || (c =? 10) || (c =? 13))%N.

Fixpoint skip_spaces (s : str) : str :=
  match s with
  | c :: s' => if json_space c then skip_spaces s' else s
  | [] => []
  end.

(** The characters up to the closing double quote. *)
Fixpoint read_string (s : str) : option (str * str) :=
  match s with
  | [] => None
  | c :: s' =>
      if (c =? 34)%N then Some ([], s')
      else if (c =? 92)%N then None
      else '(body, rest) ← read_string s'; Some (c :: body, rest)
  end.

Definition is_digit (c : N) : bool := ((48 <=? c) && (c <=? 57))%N.

Fixpoint read_digits (s : str) : str * str :=
  match s with
  | c :: s' => if is_digit c then let '(ds, rest) := read_digits s' in (c :: ds, rest)
               else ([], s)
  | [] => ([], [])
  end.

Definition read_atom (s : str) : option (json * str) :=
  if starts_with (lit "true") s then Some (JBool true, drop 4 s)
  else if starts_with (lit "false") s then Some (JBool false, drop 5 s)
  else if starts_with (lit "null") s then Some (JNull, drop 4 s)
  else
    let '(sign, s') := match s with
                       | c :: s' => if (c =? 45)%N then ([c], s') else ([], s)
                       | [] => ([], s)
                       end in
    match read_digits s' with
    | ([], _) => None
    | (ds, rest) => Some (JNum (sign ++ ds), rest)
    end.

Fixpoint read_value (fuel : nat) (s : str) : option (json * str) :=
  match fuel with
  | 0 => None
  | S fuel =>
      match skip_spaces s with
      | c :: s' =>
          if (c =? 34)%N then '(body, rest) ← read_string s'; Some (JStr body, rest)
          else if (c =? 91)%N then
            match skip_spaces s' with
            | d :: rest =>
                if (d =? 93)%N then Some (JArr [], rest)
                else '(items, rest) ← read_items fuel s'; Some (JArr items, rest)
            | [] => None
            end
          else if (c =? 123)%N then
            match skip_spaces s' with
            | d :: rest =>
                if (d =? 125)%N then Some (JObj [], rest)
                else '(fields, rest) ← read_fields fuel s'; Some (JObj fields, rest)
            | [] => None
            end
          else read_atom (c :: s')
      | [] => None
      end
  end
with read_items (fuel : nat) (s : str) : option (list json * str) :=
  match fuel with
  | 0 => None
  | S fuel =>
      '(v, rest) ← read_value fuel s;
      match skip_spaces rest with
      | c :: rest' =>
          if (c =? 44)%N then '(vs, rest'') ← read_items fuel rest'; Some (v :: vs, rest'')
          else if (c =? 93)%N then Some ([v], rest')
          else None
      | [] => None
      end
  end
with read_fields (fuel : nat) (s : str) : option (list (str * json) * str) :=
  match fuel with
  | 0 => None
  | S fuel =>
      match skip_spaces s with
      | q :: s' =>
          if (q =? 34)%N then
            '(k, rest) ← read_string s';
            match skip_spaces rest with
            | c :: rest' =>
                if (c =? 58)%N then
                  '(v, rest'') ← read_value fuel rest';
                  match skip_spaces rest'' with
                  | d :: r =>
                      if (d =? 44)%N then
                        '(fs, r') ← read_fields fuel r; Some ((k, v) :: fs, r')
                      else if (d =? 125)%N then Some ([(k, v)], r)
                      else None
                  | [] => None
                  end
                else None
            | [] => None
            end
          else None
      | [] => None
      end
  end.

Definition sample_loads (s : str) : outcome (dict json) :=
  match read_value (2 * length s + 2) s with
  | Some (JObj fields, rest) =>
      if truthy (skip_spaces rest) then Raised (Exn true (lit "Extra data"))
      else Returned fields
  | _ => Raised (Exn true (lit "Expecting value"))
  end.

(** The reply of section 8 of the specification: a JSON document with
    text around it. *)
Definition sample_body : str :=
  litq "`job_title`:`X`,`role_summary`:`...`, `knowledge`:[],`skills`:[],`abilities`:[],`other_characteristics`:[],`key_tasks`:[],`gaps`:[]".

Definition sample_reply : str :=
  lit "Sure! " ++ lit "{" ++ sample_body ++ lit "}" ++ lit " thanks".

Definition sample_document : dict json := [
  (lit "job_title", JStr (lit "X"));
  (lit "role_summary", JStr (lit "..."));
  (lit "knowledge", JArr []);
  (lit "skills", JArr []);
  (lit "abilities", JArr []);
  (lit "other_characteristics", JArr []);
  (lit "key_tasks", JArr []);
  (lit "gaps", JArr [])
].

(** Replies that leak the tracking block of the system prompt. *)
Definition leaky_reply : str :=
  lit "Thanks for sharing. INTERNAL TRACKING Coverage: none".

Definition ragged_reply : str := lit "  Sure. Tell me INTERNAL x".

(** A session in the interview, after [n] exchanges. *)
Definition sample_session (n : nat) : session :=
  Session
    (Message assistant (get_intro (lit "Analyst") false)
       :: mjoin (replicate n [Message user (lit "I build the weekly reports.");
                              Message assistant (lit "What tools do you use?")]))
    COVERAGE_AREAS false None true [] (lit "Analyst") true.

(** The same once the synthesis has produced the document of the
    specification's example. *)
Definition finished_session : session :=
  with_result sample_document (sample_session 3).

(** * Properties *)

(** ** Occurrences of a substring *)

Lemma occurs_at_cons sub c text i :
  occurs_at sub (c :: text) (S i) ↔ occurs_at sub text i.
Proof. unfold occurs_at. split; intros H k x Hk; apply (H k x Hk). Qed.

Lemma starts_with_occurs sub text :
  starts_with sub text = true ↔ occurs_at sub text 0.
Proof.
  revert text. induction sub as [|a sub IH]; intros text; simpl.
  - split; [|done]. intros _ k c Hk. by destruct k.
  - destruct text as [|b text].
    + split; [done|]. intros H. specialize (H 0 a eq_refl). done.
    + rewrite andb_true_iff, N.eqb_eq, IH. split.
      * intros [-> H] [|k] c Hk; simpl in *; [done|]. by apply H.
      * intros H. split.
        -- specialize (H 0 a eq_refl). simpl in H. congruence.
        -- intros k c Hk. apply (H (S k) c Hk).
Qed.

Lemma index_of_Some sub text i :
  index_of sub text = Some i ↔
  occurs_at sub text i ∧ i ≤ length text ∧ ∀ j, j < i → ¬ occurs_at sub text j.
Proof.
  revert i. induction text as [|c text IH]; intros i; simpl.
  - destruct (starts_with sub []) eqn:E.
    + apply starts_with_occurs in E. split.
      * intros [= <-]. split_and!; [done|lia|lia].
      * intros (_ & Hi & _). f_equal. simpl in Hi. lia.
    + split; [done|]. intros (H & Hi & _). simpl in Hi. assert (i = 0) as -> by lia.
      apply starts_with_occurs in H. congruence.
  - destruct (starts_with sub (c :: text)) eqn:E.
    + apply starts_with_occurs in E. split.
      * intros [= <-]. split_and!; [done|lia|lia].
      * intros (_ & _ & Hj). destruct i; [done|]. destruct (Hj 0); [lia|done].
    + assert (¬ occurs_at sub (c :: text) 0) as E'.
      { rewrite <- starts_with_occurs. congruence. }
      destruct (index_of sub text) as [i'|] eqn:Ei; simpl.
      * destruct (proj1 (IH i') eq_refl) as (H1 & H2 & H3). split.
        -- intros [= <-]. split_and!.
           ++ by apply occurs_at_cons.
           ++ simpl. lia.
           ++ intros [|j] Hj; [done|]. rewrite occurs_at_cons. apply H3. lia.
        -- intros (G1 & G2 & G3). destruct i as [|i]; [done|]. f_equal.
           apply occurs_at_cons in G1.
           destruct (decide (i = i')) as [|Hne]; [congruence|].
           destruct (decide (i < i')).
           ++ destruct (H3 i); done.
           ++ destruct (G3 (S i')); [lia|]. by apply occurs_at_cons.
      * split; [done|]. intros (G1 & G2 & G3). destruct i as [|i]; [done|].
        apply occurs_at_cons in G1. simpl in G2.
        enough (@None nat = Some i) by done.
        apply IH. split_and!; [done|lia|].
        intros j Hj. rewrite <- (occurs_at_cons _ c). apply G3. lia.
Qed.

Lemma index_of_None sub text :
  index_of sub text = None ↔ ∀ j, j ≤ length text → ¬ occurs_at sub text j.
Proof.
  induction text as [|c text IH]; simpl.
  - destruct (starts_with sub []) eqn:E.
    + apply starts_with_occurs in E. split; [done|]. intros H. destruct (H 0); [lia|done].
    + split; [|done]. intros _ j Hj. assert (j = 0) as -> by lia.
      rewrite <- starts_with_occurs. congruence.
  - destruct (starts_with sub (c :: text)) eqn:E.
    + apply starts_with_occurs in E. split; [done|]. intros H. destruct (H 0); [lia|done].
    + destruct (index_of sub text) as [i'|] eqn:Ei; simpl.
      * split; [done|]. intros H. exfalso.
        assert (Some i' = None) as Hc; [|done]. apply IH.
        intros j Hj. rewrite <- (occurs_at_cons _ c). apply H. lia.
      * split; [|done]. intros _ [|j] Hj.
        -- rewrite <- starts_with_occurs. congruence.
        -- rewrite occurs_at_cons. apply (proj1 IH eq_refl). lia.
Qed.

Lemma occurs_at_bound sub text i :
  sub ≠ [] → occurs_at sub text i → i + length sub ≤ length text.
Proof.
  intros Hne H. destruct (lookup_lt_is_Some_2 sub (length sub - 1)) as [c Hc].
  { destruct sub; [done|simpl; lia]. }
  apply H, lookup_lt_Some in Hc. lia.
Qed.

Lemma occurs_at_take sub text p i :
  sub ≠ [] →
  occurs_at sub (take p text) i ↔ occurs_at sub text i ∧ i + length sub ≤ p.
Proof.
  intros Hne. split.
  - intros H. split.
    + intros k c Hk. apply H, lookup_take_Some in Hk. tauto.
    + apply occurs_at_bound in H; [|done]. rewrite length_take in H. lia.
  - intros [H Hp] k c Hk. rewrite lookup_take_lt; [by apply H|].
    apply lookup_lt_Some in Hk. lia.
Qed.

Lemma occurs_at_infix sub pre cur post j :
  occurs_at sub cur j → occurs_at sub (pre ++ cur ++ post) (length pre + j).
Proof.
  intros H k c Hk. rewrite lookup_app_r by lia.
  replace (length pre + j + k - length pre) with (j + k) by lia.
  apply lookup_app_l_Some. by apply H.
Qed.

(** ** Whitespace *)

Lemma clean_nonempty m : clean m = true → m ≠ [].
Proof. by destruct m. Qed.

Lemma clean_lookup m k c : clean m = true → m !! k = Some c → isspace c = false.
Proof.
  unfold clean. rewrite andb_true_iff, forallb_forall. intros [_ H] Hk.
  apply negb_true_iff, H, list_elem_of_In. by eapply list_elem_of_lookup_2.
Qed.

Lemma blank_lookup ws k c : blank ws → ws !! k = Some c → isspace c = true.
Proof. intros H Hk. by eapply (Forall_lookup_1 _ _ _ _ H). Qed.

Lemma occurs_at_core sub ws1 cur ws2 i :
  clean sub = true → blank ws1 → blank ws2 →
  occurs_at sub (ws1 ++ cur ++ ws2) i →
  length ws1 ≤ i ∧ occurs_at sub cur (i - length ws1).
Proof.
  intros Hc H1 H2 H.
  assert (∀ k c, sub !! k = Some c →
            length ws1 ≤ i + k ∧ cur !! (i + k - length ws1) = Some c) as Hpos.
  { intros k c Hk. pose proof (clean_lookup _ _ _ Hc Hk) as Hs.
    apply H in Hk. apply lookup_app_Some in Hk as [Hk|[Hle Hk]].
    { apply (blank_lookup _ _ _ H1) in Hk. congruence. }
    split; [done|]. apply lookup_app_Some in Hk as [Hk|[_ Hk]]; [done|].
    apply (blank_lookup _ _ _ H2) in Hk. congruence. }
  assert (length ws1 ≤ i) as Hi.
  { destruct sub as [|c sub]; [done|]. destruct (Hpos 0 c eq_refl). lia. }
  split; [done|]. intros k c Hk. destruct (Hpos k c Hk) as [_ Hk'].
  by replace (i - length ws1 + k) with (i + k - length ws1) by lia.
Qed.

Lemma lstrip_decomp s : ∃ ws, s = ws ++ lstrip s ∧ blank ws.
Proof.
  induction s as [|c s (ws & Hs & Hws)]; simpl.
  - exists []. split; [done|constructor].
  - destruct (isspace c) eqn:E.
    + exists (c :: ws). split; [simpl; congruence|]. by constructor.
    + exists []. split; [done|constructor].
Qed.

Lemma lstrip_blank_app ws s : blank ws → lstrip (ws ++ s) = lstrip s.
Proof. induction 1 as [|c ws Hc _ IH]; simpl; [done|]. by rewrite Hc. Qed.

Lemma strip_decomp s : ∃ ws1 ws2, s = ws1 ++ strip s ++ ws2 ∧ blank ws1 ∧ blank ws2.
Proof.
  destruct (lstrip_decomp s) as (ws1 & Hs & H1).
  destruct (lstrip_decomp (rev (lstrip s))) as (ws2 & Hr & H2).
  exists ws1, (rev ws2). split_and!; [|done|].
  - rewrite Hs at 1. f_equal. unfold strip, rstrip.
    rewrite <- rev_app_distr, <- Hr. by rewrite rev_involutive.
  - by apply Forall_rev.
Qed.

Lemma strip_blank_app ws s : blank ws → strip (ws ++ s) = strip s.
Proof. intros H. unfold strip. by rewrite lstrip_blank_app. Qed.

(** ** The earliest marker *)

Lemma compatible_snoc ms m :
  compatible (ms ++ [m]) = true →
  compatible ms = true ∧ clean m = true ∧ Forall (λ m', head_in_tail m' m = false) ms.
Proof.
  induction ms as [|m0 ms IH]; simpl.
  - rewrite !andb_true_iff. intros [[? _] _]. split_and!; [done|done|constructor].
  - rewrite !andb_true_iff, forallb_app. simpl. rewrite !andb_true_iff.
    intros [[? [? [Hm _]]] Hms]. destruct (IH Hms) as (? & ? & ?).
    split_and!; [done..|]. constructor; [|done]. by apply negb_true_iff.
Qed.

Lemma compatible_clean ms : compatible ms = true → Forall (λ m, clean m = true) ms.
Proof.
  induction ms as [|m ms IH]; simpl; [constructor|].
  rewrite !andb_true_iff. intros [[? _] ?]. constructor; auto.
Qed.

Lemma earliest_snoc ms m text :
  earliest (ms ++ [m]) text = opt_min (earliest ms text) (index_of m text).
Proof. unfold earliest. by rewrite fold_left_app. Qed.

Lemma earliest_Some ms text p :
  earliest ms text = Some p →
  (∃ m, m ∈ ms ∧ index_of m text = Some p)
  ∧ ∀ m q, m ∈ ms → index_of m text = Some q → p ≤ q.
Proof.
  revert p. induction ms as [|m ms IH] using rev_ind; intros p.
  - done.
  - rewrite earliest_snoc. setoid_rewrite elem_of_app. setoid_rewrite list_elem_of_singleton.
    destruct (earliest ms text) as [p0|] eqn:E0; simpl.
    + destruct (IH p0 eq_refl) as [(m0 & Hm0 & Hi0) Hmin].
      destruct (index_of m text) as [q|] eqn:Eq; intros [= <-].
      * split.
        -- destruct (decide (p0 ≤ q)).
           ++ exists m0. rewrite Nat.min_l by done. eauto.
           ++ exists m. rewrite Nat.min_r by lia. eauto.
        -- intros m1 q1 [H1| ->] Hq1.
           ++ specialize (Hmin m1 q1 H1 Hq1). lia.
           ++ assert (q1 = q) as -> by congruence. lia.
      * split; [eauto|]. intros m1 q1 [H1| ->] Hq1; [eauto|congruence].
    + intros Hp. split; [eauto|]. intros m1 q1 [H1| ->] Hq1; [|by simplify_eq].
      exfalso. clear IH Hp. revert E0 H1 Hq1. clear.
      induction ms as [|m' ms IH] using rev_ind; [by intros _ ?%elem_of_nil|].
      rewrite earliest_snoc, elem_of_app, list_elem_of_singleton.
      destruct (earliest ms text), (index_of m' text) eqn:E'; simpl; try done.
      intros _ [?| ->] ?; [by apply IH|congruence].
Qed.

Lemma earliest_None ms text m :
  earliest ms text = None → m ∈ ms → index_of m text = None.
Proof.
  induction ms as [|m' ms IH] using rev_ind; [by intros _ ?%elem_of_nil|].
  rewrite earliest_snoc, elem_of_app, list_elem_of_singleton.
  destruct (earliest ms text), (index_of m' text) eqn:E'; simpl; try done.
  intros _ [?| ->]; [by apply IH|done].
Qed.

Lemma head_in_tail_lookup m' m c k :
  head_in_tail m' m = false → m' !! 0 = Some c → m !! S k ≠ Some c.
Proof.
  destruct m' as [|c' m']; [done|]. destruct m as [|x m]; [done|]. simpl.
  intros H [= ->] Hk. apply not_true_iff_false in H. apply H.
  apply existsb_exists. exists c. split; [|apply N.eqb_refl].
  apply list_elem_of_In. by eapply list_elem_of_lookup_2.
Qed.

Lemma strip_marker_after_cut text m m' p :
  clean m = true → clean m' = true → head_in_tail m' m = false →
  index_of m' text = Some p →
  strip_marker (strip (take p text)) m =
    match index_of m text with
    | Some q => if q <? p then strip (take q text) else strip (take p text)
    | None => strip (take p text)
    end.
Proof.
  intros Hm Hm' Hht Hp.
  pose proof (clean_nonempty _ Hm) as Hne.
  destruct (strip_decomp (take p text)) as (ws1 & ws2 & Hd & B1 & B2).
  apply index_of_Some in Hp as (Op & Hple & _).
  unfold strip_marker, contains, split_head.
  destruct (index_of m (strip (take p text))) as [j|] eqn:Ej.
  - apply index_of_Some in Ej as (O1 & _ & O3).
    pose proof (occurs_at_bound _ _ _ Hne O1) as Hjb.
    pose proof (occurs_at_infix _ ws1 _ ws2 _ O1) as O2. rewrite <- Hd in O2.
    apply occurs_at_take in O2 as [O2 Hb]; [|done].
    assert (m ≠ [] → 0 < length m) as Hlen by (destruct m; simpl; [done|lia]).
    specialize (Hlen Hne).
    assert (index_of m text = Some (length ws1 + j)) as ->.
    { apply index_of_Some. split_and!; [done|lia|].
      intros i Hi Oi.
      assert (occurs_at m (take p text) i) as Oi'.
      { apply occurs_at_take; [done|]. split; [done|lia]. }
      rewrite Hd in Oi'. apply occurs_at_core in Oi' as [Hle Oi']; [|done..].
      apply (O3 (i - length ws1)); [lia|done]. }
    destruct (Nat.ltb_spec (length ws1 + j) p); [|lia].
    assert (take (length ws1 + j) text = ws1 ++ take j (strip (take p text))) as ->.
    { transitivity (take (length ws1 + j) (ws1 ++ strip (take p text) ++ ws2)).
      - rewrite <- Hd, take_take. f_equal. lia.
      - rewrite take_app_add' by done. by rewrite take_app_le by lia. }
    by rewrite strip_blank_app.
  - destruct (index_of m text) as [q|] eqn:Eq; [|done].
    destruct (Nat.ltb_spec q p) as [Hq|]; [|done]. exfalso.
    apply index_of_Some in Eq as (Oq & _ & _).
    destruct (decide (q + length m ≤ p)) as [Hfit|Hover].
    + assert (occurs_at m (take p text) q) as Oq'.
      { apply occurs_at_take; done. }
      rewrite Hd in Oq'. apply occurs_at_core in Oq' as [Hle Oq']; [|done..].
      pose proof (occurs_at_bound _ _ _ Hne Oq').
      eapply (proj1 (index_of_None _ _) Ej); [|done]. lia.
    + destruct m' as [|c m']; [done|].
      specialize (Op 0 c eq_refl). rewrite Nat.add_0_r in Op.
      destruct (lookup_lt_is_Some_2 m (p - q)) as [c' Hc']; [lia|].
      pose proof (Oq _ _ Hc') as Hc''.
      replace (q + (p - q)) with p in Hc'' by lia.
      assert (c' = c) as -> by congruence.
      destruct (p - q) as [|k] eqn:Ek; [lia|].
      by eapply (head_in_tail_lookup (c :: m') m c k).
Qed.

Theorem strip_markers_earliest ms text :
  compatible ms = true →
  strip_markers ms text =
    match earliest ms text with
    | Some p => strip (take p text)
    | None => text
    end.
Proof.
  induction ms as [|m ms IH] using rev_ind; intros Hc; [done|].
  apply compatible_snoc in Hc as (Hc & Hm & Hht).
  unfold strip_markers in *. rewrite fold_left_app, earliest_snoc. simpl.
  rewrite IH by done. destruct (earliest ms text) as [p|] eqn:E; simpl.
  - apply earliest_Some in E as [(m' & Hm' & Hi') _].
    rewrite (strip_marker_after_cut text m m' p); [|done| | |done].
    + destruct (index_of m text) as [q|]; [|done].
      destruct (Nat.ltb_spec q p).
      * by rewrite Nat.min_r by lia.
      * by rewrite Nat.min_l by lia.
    + apply compatible_clean in Hc. by eapply (proj1 (Forall_forall _ _) Hc).
    + by eapply (proj1 (Forall_forall _ _) Hht).
  - unfold strip_marker, contains, split_head. by destruct (index_of m text).
Qed.

Lemma markers_compatible : compatible MARKERS = true.
Proof. vm_compute. reflexivity. Qed.

(** ** Sentence ends *)

Lemma last_char_snoc body c : last_char (body ++ [c]) = [c].
Proof. unfold last_char. by rewrite rev_unit. Qed.

Lemma contains_terminal c : contains [c] TERMINALS = is_terminal c.
Proof.
  change TERMINALS with [46; 63; 33]%N.
  unfold contains, is_terminal. simpl. rewrite !andb_true_r.
  by destruct (c =? 46)%N, (c =? 63)%N, (c =? 33)%N.
Qed.

Lemma last_char_terminal text :
  text ≠ [] → contains (last_char text) TERMINALS = ends_in_terminal text.
Proof.
  destruct text as [|c body] using rev_ind; [done|]. intros _.
  rewrite last_char_snoc, contains_terminal. unfold ends_in_terminal.
  by rewrite last_snoc.
Qed.

Lemma rindex_of_char c x text :
  rindex_of [c] (x :: text) =
    match rindex_of [c] text with
    | Some i => Some (S i)
    | None => if (c =? x)%N then Some 0 else None
    end.
Proof. simpl. by rewrite andb_true_r. Qed.

Lemma rindex_of_last_where c text : rindex_of [c] text = last_where (N.eqb c) text.
Proof.
  induction text as [|x text IH]; [done|].
  rewrite rindex_of_char. simpl. by rewrite IH.
Qed.

Lemma last_where_ext P Q text :
  (∀ c, P c = Q c) → last_where P text = last_where Q text.
Proof. intros H. induction text as [|x text IH]; simpl; [done|]. by rewrite IH, H. Qed.

Lemma last_where_or P Q text :
  opt_Z (last_where (λ c, P c || Q c) text)
  = (opt_Z (last_where P text) `max` opt_Z (last_where Q text))%Z.
Proof.
  induction text as [|x text IH]; simpl; [done|].
  destruct (last_where (λ c, P c || Q c) text), (last_where P text),
    (last_where Q text), (P x), (Q x); simpl in *; lia.
Qed.

Lemma last_period_terminal text : last_period text = opt_Z (last_terminal text).
Proof.
  unfold last_period, rfind, last_terminal. change (lit ".") with [46%N].
  change (lit "?") with [63%N]. change (lit "!") with [33%N].
  rewrite !rindex_of_last_where.
  change (match last_where (N.eqb 46) text with Some i => Z.of_nat i | None => (-1)%Z end)
    with (opt_Z (last_where (N.eqb 46) text)).
  change (match last_where (N.eqb 63) text with Some i => Z.of_nat i | None => (-1)%Z end)
    with (opt_Z (last_where (N.eqb 63) text)).
  change (match last_where (N.eqb 33) text with Some i => Z.of_nat i | None => (-1)%Z end)
    with (opt_Z (last_where (N.eqb 33) text)).
  rewrite <- !last_where_or. f_equal. apply last_where_ext.
  intros c. unfold is_terminal. by rewrite !(N.eqb_sym c).
Qed.

Lemma slice_take {A} (s : list A) n : (0 ≤ n)%Z → slice s 0 n = take (Z.to_nat n) s.
Proof.
  intros Hn. unfold slice, clamp. simpl.
  destruct (Z.ltb_spec n 0); [lia|].
  rewrite (Z.min_l 0) by lia. change (Z.to_nat 0) with 0. rewrite Nat.sub_0_r, drop_0.
  destruct (decide (n ≤ Z.of_nat (length s))%Z).
  - by rewrite Z.min_l by lia.
  - rewrite Z.min_r by lia. rewrite Nat2Z.id.
    rewrite (take_ge s (Z.to_nat n)) by lia. by apply take_ge.
Qed.

Lemma drop_incomplete_spec text :
  drop_incomplete text =
    if ends_in_terminal text then text
    else match last_terminal text with
         | Some (S i) => take (S (S i)) text
         | _ => text
         end.
Proof.
  unfold drop_incomplete. destruct text as [|c text]; [done|].
  rewrite last_char_terminal by done. simpl truthy. simpl andb.
  destruct (ends_in_terminal (c :: text)); [done|]. simpl negb. cbv iota.
  rewrite last_period_terminal.
  destruct (last_terminal (c :: text)) as [[|i]|]; [done| |done].
  simpl opt_Z. destruct (Z.ltb_spec 0 (Z.of_nat (S i))); [|lia].
  rewrite slice_take by lia. f_equal. lia.
Qed.

Lemma drop_incomplete_prefix text : ∃ n, drop_incomplete text = take n text.
Proof.
  rewrite drop_incomplete_spec.
  destruct (ends_in_terminal text); [exists (length text); by rewrite take_ge|].
  destruct (last_terminal text) as [[|i]|]; first [by eexists | exists (length text); by rewrite take_ge].
Qed.

Lemma strip_markers_cut text : strip_markers MARKERS text = cut_and_strip text.
Proof. apply strip_markers_earliest, markers_compatible. Qed.

Lemma sanitize_cases text :
  sanitize text = FALLBACK ∨ ∃ n, sanitize text = take n (cut_and_strip text).
Proof.
  unfold sanitize. rewrite strip_markers_cut.
  destruct (drop_incomplete_prefix (cut_and_strip text)) as [n ->].
  destruct (truthy _); eauto.
Qed.

Lemma occurs_index_of sub text i :
  occurs_at sub text i → i ≤ length text → ∃ q, index_of sub text = Some q ∧ q ≤ i.
Proof.
  intros Ho Hi. destruct (index_of sub text) as [q|] eqn:E.
  - exists q. split; [done|]. apply index_of_Some in E as (_ & _ & Hmin).
    destruct (decide (q ≤ i)); [done|]. destruct (Hmin i); [lia|done].
  - destruct (proj1 (index_of_None _ _) E i Hi Ho).
Qed.

Lemma contains_false_take m text n : contains m text = false → contains m (take n text) = false.
Proof.
  unfold contains. destruct (index_of m text) eqn:E; [done|]. intros _.
  destruct (index_of m (take n text)) as [j|] eqn:Ej; [|done]. exfalso.
  apply index_of_Some in Ej as (Oj & Hj & _).
  eapply (proj1 (index_of_None _ _) E j).
  - rewrite length_take in Hj. lia.
  - intros k c Hk. apply Oj, lookup_take_Some in Hk. tauto.
Qed.

Lemma earliest_is_Some ms text m q :
  m ∈ ms → index_of m text = Some q → ∃ p, earliest ms text = Some p ∧ p ≤ q.
Proof.
  intros Hm Hq. destruct (earliest ms text) as [p|] eqn:E.
  - exists p. split; [done|]. apply earliest_Some in E as [_ Hmin]. eauto.
  - rewrite (earliest_None _ _ _ E Hm) in Hq. done.
Qed.

Lemma cut_and_strip_no_marker text m :
  m ∈ MARKERS → contains m (cut_and_strip text) = false.
Proof.
  intros Hm. unfold contains, cut_and_strip.
  destruct (earliest MARKERS text) as [p|] eqn:E.
  - destruct (index_of m (strip (take p text))) as [j|] eqn:Ej; [|done]. exfalso.
    assert (clean m = true) as Hc.
    { pose proof (compatible_clean _ markers_compatible) as H.
      by eapply (proj1 (Forall_forall _ _) H). }
    pose proof (clean_nonempty _ Hc) as Hne.
    destruct (strip_decomp (take p text)) as (ws1 & ws2 & Hd & _ & _).
    apply index_of_Some in Ej as (Oj & _ & _).
    apply (occurs_at_infix _ ws1 _ ws2) in Oj. rewrite <- Hd in Oj.
    apply occurs_at_take in Oj as [Oj Hb]; [|done].
    destruct (occurs_index_of _ _ _ Oj) as (q & Hq & Hle).
    { apply occurs_at_bound in Oj; [lia|done]. }
    apply earliest_Some in E as [_ Hmin]. specialize (Hmin m q Hm Hq).
    destruct m; [done|]. simpl in Hb. lia.
  - by rewrite (earliest_None _ _ _ E Hm).
Qed.

Lemma sanitize_no_marker text m : m ∈ MARKERS → contains m (sanitize text) = false.
Proof.
  intros Hm. destruct (sanitize_cases text) as [->|[n ->]].
  - revert m Hm. apply Forall_forall. by repeat constructor.
  - by apply contains_false_take, cut_and_strip_no_marker.
Qed.

(** Claim C10. What the sanitizer returns contains none of the seven
    leakage markers: COVERAGE, PROGRESS:, INTERNAL, exchanges and the
    three progress glyphs. *)
Theorem sanitize_strips_every_marker text :
  Forall (λ m, contains m (sanitize text) = false) MARKERS.
Proof. apply Forall_forall. intros m Hm. by apply sanitize_no_marker. Qed.

Lemma INTERNAL_marker : INTERNAL ∈ MARKERS.
Proof. apply list_elem_of_In. simpl. tauto. Qed.

(** Claim C2. For a generated text that contains INTERNAL, what the
    sanitizer returns does not contain INTERNAL, and nothing of what
    follows an INTERNAL in the text reaches it: the result is the
    fallback question or a piece of the text that precedes the
    INTERNAL. *)
Theorem sanitize_drops_internal text :
  contains INTERNAL text = true →
  contains INTERNAL (sanitize text) = false
  ∧ ∀ pre post, text = pre ++ INTERNAL ++ post →
      sanitize text = FALLBACK ∨ ∃ a b, pre = a ++ sanitize text ++ b.
Proof.
  intros _. split.
  { apply sanitize_no_marker, INTERNAL_marker. }
  intros pre post ->. destruct (sanitize_cases (pre ++ INTERNAL ++ post)) as [?|[n Hn]]; [by left|].
  right. rewrite Hn. unfold cut_and_strip.
  destruct (occurs_index_of INTERNAL (pre ++ INTERNAL ++ post) (length pre)) as (q & Hq & Hle).
  { rewrite <- (Nat.add_0_r (length pre)). apply occurs_at_infix. by intros k c Hk. }
  { rewrite length_app. lia. }
  destruct (earliest_is_Some MARKERS (pre ++ INTERNAL ++ post) INTERNAL q)
    as (p & -> & Hp); [apply INTERNAL_marker|done|].
  rewrite take_app_le by lia.
  destruct (strip_decomp (take p pre)) as (ws1 & ws2 & Hd & _ & _).
  exists ws1, (drop n (strip (take p pre)) ++ ws2 ++ drop p pre).
  rewrite <- (take_drop p pre) at 1. rewrite Hd at 1.
  rewrite <- (take_drop n (strip (take p pre))) at 1.
  by rewrite <- !app_assoc.
Qed.

(** Claim C6 fails as worded: on [hello INTERNAL data] the program
    returns [hello], the three steps of the specification give [hello]
    followed by a space. *)
Lemma sanitize_strips_whitespace :
  sanitize (lit "hello INTERNAL data") ≠ spec_sanitize (lit "hello INTERNAL data").
Proof. vm_compute. discriminate. Qed.

(** Claim C6, amended. The sanitizer cuts the text at the first
    occurrence of any marker and strips the whitespace around what is
    left; then, if the text does not end in a full stop, question mark
    or exclamation mark, it cuts it after the last such mark, a text
    without one staying as it is; an empty result is replaced by the
    fallback question. The statement leaves aside a text whose last
    such mark is its first character and which does not end in one. *)
Theorem sanitize_amended text :
  ends_in_terminal (cut_and_strip text) = true
    ∨ last_terminal (cut_and_strip text) ≠ Some 0 →
  sanitize text = amended_sanitize text.
Proof.
  intros H. unfold sanitize, amended_sanitize, spec_truncate_sentence.
  rewrite strip_markers_cut, drop_incomplete_spec.
  destruct (ends_in_terminal (cut_and_strip text)); [done|].
  destruct (last_terminal (cut_and_strip text)) as [[|i]|]; [|done..].
  by destruct H.
Qed.

Lemma strip_markers_absent ms text :
  Forall (λ m, contains m text = false) ms → strip_markers ms text = text.
Proof.
  unfold strip_markers. induction 1 as [|m ms Hm _ IH]; simpl; [done|].
  unfold strip_marker at 2. by rewrite Hm.
Qed.

(** Claim C8. A non-empty text that ends in a full stop, question mark
    or exclamation mark and contains no marker is returned unchanged by
    the sanitizer. *)
Theorem sanitize_fixes_sanitized text :
  text ≠ [] →
  ends_in_terminal text = true →
  Forall (λ m, contains m text = false) MARKERS →
  sanitize text = text.
Proof.
  intros Hne Hend Hm. unfold sanitize.
  rewrite strip_markers_absent, drop_incomplete_spec, Hend by done.
  by destruct text.
Qed.

(** ** Coverage *)

Lemma dict_get_alter {V} (f : V → V) k (d : dict V) k' :
  dict_get (dict_alter f k d) k' =
    if decide (k = k') then f <$> dict_get d k' else dict_get d k'.
Proof.
  induction d as [|[k0 v] d IH]; simpl.
  - by case_decide.
  - destruct (decide (k0 = k)) as [->|Hne]; simpl.
    + by destruct (decide (k = k')).
    + destruct (decide (k0 = k')) as [->|]; simpl.
      * by rewrite decide_False by done.
      * done.
Qed.

Lemma coverage_loop_mono m cs coverage key :
  is_covered coverage key = true →
  is_covered (coverage_loop m cs coverage).1 key = true.
Proof.
  revert coverage. induction cs as [|[k words] cs IH]; intros coverage H; simpl; [done|].
  destruct (any_in words m); [|by apply IH].
  destruct (dict_get coverage k) eqn:E; [|done].
  apply IH. unfold is_covered in *. rewrite dict_get_alter.
  case_decide; [|done]. subst. by rewrite E.
Qed.

Lemma coverage_loop_ok m cs coverage coverage' key :
  coverage_loop m cs coverage = (coverage', None) →
  dict_get coverage' key
    = (λ a, if hit m cs key then mark_covered a else a) <$> dict_get coverage key
  ∧ (hit m cs key = true → is_Some (dict_get coverage key)).
Proof.
  revert coverage. induction cs as [|[k words] cs IH]; intros coverage; simpl.
  - intros [= <-]. split; [by destruct (dict_get coverage key)|done].
  - destruct (any_in words m) eqn:Ew.
    + destruct (dict_get coverage k) as [a0|] eqn:E; [|done].
      intros H. destruct (IH _ H) as [-> Hs]. rewrite dict_get_alter in *.
      rewrite andb_true_r. destruct (decide (k = key)) as [->|Hne].
      * rewrite bool_decide_eq_true_2 by done. rewrite E. simpl. split; [|eauto].
        f_equal. by destruct (hit m cs key).
      * rewrite bool_decide_eq_false_2 by done. simpl. done.
    + rewrite andb_false_r. simpl. apply IH.
Qed.

Lemma hit_unique m cs key words :
  NoDup cs.*1 → (key, words) ∈ cs → hit m cs key = any_in words m.
Proof.
  induction cs as [|[k w] cs IH]; simpl; [by intros _ ?%elem_of_nil|].
  rewrite NoDup_cons, elem_of_cons. intros [Hk Hnd] [[= <- <-]|Hin].
  - rewrite bool_decide_eq_true_2 by done. simpl.
    destruct (any_in words m); [done|]. simpl.
    apply not_true_iff_false. intros (c & Hc & Hb)%existsb_exists.
    apply andb_true_iff in Hb as [Hb%bool_decide_eq_true _].
    apply Hk. apply list_elem_of_fmap. exists c. split; [done|]. by apply list_elem_of_In.
  - rewrite bool_decide_eq_false_2; [by apply IH|].
    intros ->. apply Hk. apply list_elem_of_fmap. by exists (key, words).
Qed.

Lemma checks_NoDup : NoDup checks.*1.
Proof. apply (bool_decide_unpack _). by vm_compute. Qed.

Section Coverage.
Variable lower_table : str → N → str → str.

Lemma lower_from_ascii before x rest :
  Forall (λ c, (c < 128)%N) x →
  lower_from lower_table before (x ++ rest)
  = map ascii_lower x ++ lower_from lower_table (before ++ x) rest.
Proof.
  intros H. revert before. induction H as [|c x Hc _ IH]; intros before; simpl.
  - by rewrite app_nil_r.
  - apply N.ltb_lt in Hc. rewrite Hc. simpl. rewrite IH. by rewrite <- app_assoc.
Qed.

Lemma lower_ascii_infix pre x post :
  Forall (λ c, (c < 128)%N) x →
  ∃ a b, lower lower_table (pre ++ x ++ post) = a ++ map ascii_lower x ++ b.
Proof.
  intros H. unfold lower. generalize (@nil N) as before.
  induction pre as [|c pre IH]; intros before; simpl.
  - exists [], (lower_from lower_table (before ++ x) post). by apply lower_from_ascii.
  - destruct (IH (before ++ [c])) as (a & b & ->).
    eexists (_ ++ a), b. by rewrite <- app_assoc.
Qed.

Lemma contains_infix sub pre cur post :
  contains sub cur = true → contains sub (pre ++ cur ++ post) = true.
Proof.
  unfold contains. destruct (index_of sub cur) as [j|] eqn:E; [|done]. intros _.
  apply index_of_Some in E as (Oj & Hj & _).
  destruct (occurs_index_of sub (pre ++ cur ++ post) (length pre + j)) as (q & -> & _);
    [by apply occurs_at_infix|rewrite !length_app; lia|done].
Qed.

Lemma feed_app msgs more coverage :
  feed lower_table (msgs ++ more) coverage
  = feed lower_table more (feed lower_table msgs coverage).
Proof. unfold feed. by rewrite fold_left_app. Qed.

Lemma feed_mono more coverage key :
  is_covered coverage key = true → is_covered (feed lower_table more coverage) key = true.
Proof.
  revert coverage. induction more as [|msg more IH]; intros coverage H; [done|].
  simpl. apply IH. by apply coverage_loop_mono.
Qed.

(** Claim C1. Coverage flags are monotonic: an area that is covered
    after some sequence of user messages is still covered after any
    further messages; [update_coverage] never resets a flag. *)
Theorem coverage_monotonic msgs coverage key :
  is_covered (feed lower_table msgs coverage) key = true →
  ∀ more, is_covered (feed lower_table (msgs ++ more) coverage) key = true.
Proof. intros H more. rewrite feed_app. by apply feed_mono. Qed.

(** Claim C7. After [update_coverage] the flag of an area is true
    exactly when it was true before or the lower-cased message contains
    one of the keywords of the area; a message containing [recently I
    had an example] covers [critical_incidents], and the message
    [hello] changes nothing. *)
Theorem update_coverage_marks msg coverage coverage' :
  update_coverage lower_table msg coverage = (coverage', None) →
  (∀ key words, (key, words) ∈ checks →
     dict_get coverage' key
     = (λ a, Area (name a) (covered a || any_in words (lower lower_table msg)))
         <$> dict_get coverage key)
  ∧ (∀ pre post, msg = pre ++ lit "recently I had an example" ++ post →
       is_covered coverage' (lit "critical_incidents") = true)
  ∧ (msg = lit "hello" → coverage' = coverage).
Proof.
  unfold update_coverage. intros H. split_and!.
  - intros key words Hin.
    destruct (coverage_loop_ok _ _ _ _ key H) as [-> _].
    rewrite (hit_unique _ _ _ words checks_NoDup Hin).
    destruct (dict_get coverage key) as [[n c]|]; [|done]. simpl. f_equal.
    destruct (any_in words _); unfold mark_covered; simpl; [by rewrite orb_true_r|by rewrite orb_false_r].
  - intros pre post ->.
    set (key := lit "critical_incidents").
    set (words := [lit "example"; lit "recently"; lit "once"; lit "specific"; lit "instance"]).
    assert ((key, words) ∈ checks) as Hin by (apply list_elem_of_In; simpl; tauto).
    assert (any_in words (lower lower_table (pre ++ lit "recently I had an example" ++ post)) = true) as Hw.
    { destruct (lower_ascii_infix pre (lit "recently I had an example") post) as (a & b & ->).
      { apply Forall_forall. intros c Hc%list_elem_of_In. simpl in Hc.
        repeat (destruct Hc as [<-|Hc]; [done|]). done. }
      unfold any_in, words. cbn [existsb]. rewrite contains_infix; [done|]. by vm_compute. }
    destruct (coverage_loop_ok _ _ _ _ key H) as [Hget Hs].
    rewrite (hit_unique _ _ _ words checks_NoDup Hin), Hw in Hget, Hs.
    unfold is_covered. rewrite Hget. by destruct (Hs eq_refl) as [a ->].
  - intros ->. vm_compute in H. congruence.
Qed.
End Coverage.

(** ** Synthesis *)

Lemma last_where_app P pre l :
  last_where P (pre ++ l) =
    match last_where P l with
    | Some i => Some (length pre + i)
    | None => last_where P pre
    end.
Proof.
  induction pre as [|c pre IH]; simpl; [by destruct (last_where P l)|].
  rewrite IH. by destruct (last_where P l).
Qed.

Lemma last_where_none P l : Forall (λ c, P c = false) l → last_where P l = None.
Proof. induction 1 as [|c l Hc _ IH]; simpl; [done|]. by rewrite IH, Hc. Qed.

Lemma last_where_lookup P l i : last_where P l = Some i → ∃ c, l !! i = Some c ∧ P c = true.
Proof.
  revert i. induction l as [|x l IH]; intros i; simpl; [done|].
  destruct (last_where P l) as [j|].
  - intros [= <-]. by apply IH.
  - destruct (P x) eqn:E; [|done]. intros [= <-]. eauto.
Qed.

Lemma rfind_last c pre post :
  c ∉ post → rfind (pre ++ c :: post) [c] = Z.of_nat (length pre).
Proof.
  intros H. unfold rfind. rewrite rindex_of_last_where, last_where_app. simpl.
  rewrite last_where_none, N.eqb_refl; [by rewrite Nat.add_0_r|].
  apply Forall_forall. intros x Hx. apply N.eqb_neq. by intros ->.
Qed.

Lemma find_first c pre rest :
  c ∉ pre → find (pre ++ c :: rest) [c] = Z.of_nat (length pre).
Proof.
  intros H. unfold find. induction pre as [|x pre IH]; simpl.
  - by rewrite N.eqb_refl.
  - apply not_elem_of_cons in H as [Hx Hpre]. rewrite andb_true_r.
    destruct (N.eqb_spec c x); [done|]. specialize (IH Hpre).
    destruct (index_of [c] (pre ++ c :: rest)); simpl in *; [|lia].
    f_equal. lia.
Qed.

Lemma find_lookup text c : (0 ≤ find text [c])%Z → text !! Z.to_nat (find text [c]) = Some c.
Proof.
  unfold find. destruct (index_of [c] text) as [i|] eqn:E; [|lia]. intros _.
  apply index_of_Some in E as (O & _ & _). rewrite Nat2Z.id.
  specialize (O 0 c eq_refl). by rewrite Nat.add_0_r in O.
Qed.

Lemma rfind_lookup text c : (0 ≤ rfind text [c])%Z → text !! Z.to_nat (rfind text [c]) = Some c.
Proof.
  unfold rfind. rewrite rindex_of_last_where.
  destruct (last_where (N.eqb c) text) as [i|] eqn:E; [|lia]. intros _.
  apply last_where_lookup in E as (x & Hx & ->%N.eqb_eq). by rewrite Nat2Z.id.
Qed.

Lemma slice_mid {A} (pre mid post : list A) :
  slice (pre ++ mid ++ post) (Z.of_nat (length pre)) (Z.of_nat (length pre + length mid)) = mid.
Proof.
  unfold slice, clamp. rewrite !length_app.
  destruct (Z.ltb_spec (Z.of_nat (length pre)) 0); [lia|].
  destruct (Z.ltb_spec (Z.of_nat (length pre + length mid)) 0); [lia|].
  rewrite !Z.min_l by lia. rewrite !Nat2Z.id.
  rewrite drop_app_length. replace (length pre + length mid - length pre) with (length mid) by lia.
  by rewrite take_app_length.
Qed.

Section Synthesis.
Variable json_loads : str → outcome (dict json).
Variable client : nat → request → outcome str.

Lemma extract_document_region pre body post :
  123%N ∉ pre → 125%N ∉ post →
  extract_document json_loads (pre ++ lit "{" ++ body ++ lit "}" ++ post)
  = match json_loads (lit "{" ++ body ++ lit "}") with
    | Returned doc => doc
    | Raised e => on_exception e
    end.
Proof.
  intros Hpre Hpost. unfold extract_document.
  change (lit "{" ++ body ++ lit "}" ++ post) with (123%N :: body ++ 125%N :: post).
  change (lit "{" ++ body ++ lit "}") with (123%N :: body ++ [125%N]).
  change (lit "{") with [123%N]. change (lit "}") with [125%N].
  set (region := 123%N :: body ++ [125%N]).
  rewrite (find_first 123 pre (body ++ 125%N :: post)) by done.
  assert (pre ++ 123%N :: body ++ 125%N :: post = (pre ++ 123%N :: body) ++ 125%N :: post)
    as -> by (by rewrite <- app_assoc).
  rewrite rfind_last by done.
  assert ((pre ++ 123%N :: body) ++ 125%N :: post = pre ++ region ++ post) as ->.
  { unfold region. rewrite <- !app_assoc. simpl. by rewrite <- app_assoc. }
  assert (Z.of_nat (length (pre ++ 123%N :: body)) + 1
          = Z.of_nat (length pre + length region))%Z as ->.
  { unfold region. rewrite !length_app. simpl. rewrite length_app. simpl. lia. }
  rewrite slice_mid.
  destruct (Z.leb_spec 0 (Z.of_nat (length pre))); [|lia].
  destruct (Z.ltb_spec (Z.of_nat (length pre))
              (Z.of_nat (length pre + length region))) as [|Hge]; [done|].
  unfold region in Hge. simpl in Hge. lia.
Qed.

(** Claim C4. [generate_synthesis] parses what stands between the
    first opening brace and the last closing brace of the reply,
    whatever surrounds it, and returns the parsed document. *)
Theorem synthesis_parses_braced_region calls messages job_title pre body post doc :
  client calls (synthesis_request messages job_title)
    = Returned (pre ++ lit "{" ++ body ++ lit "}" ++ post) →
  123%N ∉ pre → 125%N ∉ post →
  json_loads (lit "{" ++ body ++ lit "}") = Returned doc →
  generate_synthesis json_loads client calls messages job_title = (doc, S calls).
Proof.
  intros Hc Hpre Hpost Hdoc. unfold generate_synthesis. rewrite Hc.
  by rewrite extract_document_region, Hdoc.
Qed.

(** Claim C5. A reply without a brace-delimited region (no opening
    brace, or no closing brace after the first opening one) gives the
    error record [No JSON found] whose [raw] field is the whole
    reply. *)
Theorem synthesis_without_region_keeps_raw calls messages job_title text :
  client calls (synthesis_request messages job_title) = Returned text →
  (find text (lit "{") < 0 ∨ rfind text (lit "}") ≤ find text (lit "{"))%Z →
  generate_synthesis json_loads client calls messages job_title
  = ([(lit "error", JStr (lit "No JSON found")); (lit "raw", JStr text)], S calls).
Proof.
  intros Hc H. unfold generate_synthesis, extract_document. rewrite Hc. f_equal.
  change (lit "{") with [123%N] in *. change (lit "}") with [125%N] in *.
  destruct (Z.leb_spec 0 (find text [123%N])) as [Hs|]; [|done].
  destruct (Z.ltb_spec (find text [123%N]) (rfind text [125%N] + 1)) as [He|]; [|done].
  exfalso. destruct H as [H|H]; [lia|].
  assert (rfind text [125%N] = find text [123%N]) as Heq by lia.
  pose proof (find_lookup _ _ Hs) as H1.
  pose proof (rfind_lookup text 125%N) as H2. rewrite Heq in H2.
  rewrite H2 in H1 by done. done.
Qed.
End Synthesis.

(** ** The script *)

Section Script.
Variable lower_table : str → N → str → str.
Variable json_loads : str → outcome (dict json).
Variable client : nat → request → outcome str.

Lemma coverage_loop_total m cs coverage :
  Forall (λ c, is_Some (dict_get coverage c.1)) cs →
  (coverage_loop m cs coverage).2 = None.
Proof.
  revert coverage. induction cs as [|[k words] cs IH]; intros coverage H; simpl; [done|].
  apply Forall_cons in H as [[a Ha] H]. simpl in Ha.
  destruct (any_in words m); [|by apply IH]. rewrite Ha. apply IH.
  eapply Forall_impl; [done|]. intros c [x Hx]. rewrite dict_get_alter.
  case_decide; rewrite Hx; eauto.
Qed.

Lemma update_coverage_total msg coverage :
  has_areas coverage → (update_coverage lower_table msg coverage).2 = None.
Proof. apply coverage_loop_total. Qed.

Lemma generate_synthesis_calls calls ms title :
  (generate_synthesis json_loads client calls ms title).2 = S calls.
Proof. unfold generate_synthesis. by destruct (client _ _). Qed.

Lemma main_idle state calls :
  run_rerun (main lower_table json_loads client state NoEvent calls) = false.
Proof.
  unfold main, below_sidebar. destruct (setup_complete _); simpl; [|done].
  by destruct (_ && _).
Qed.

(** Claim C3. Finish Interview with fewer than three exchanges shows
    a warning and changes nothing: same session state, no call to the
    generation service. With three or more, one synthesis call is made,
    its result is stored and the session is complete. The button exists
    only on a page drawn by a run that went past the initialisation,
    hence the two hypotheses on the state. *)
Theorem finish_needs_three_exchanges st calls :
  setup_complete st = true → initialized st = true →
  (exchanges (messages st) < 3 →
     interact lower_table json_loads client (Some st) FinishInterview calls
     = Run (Some st) calls [lit "Complete at least 3 exchanges."] false None)
  ∧ (3 ≤ exchanges (messages st) →
     ∃ r st',
       generate_synthesis json_loads client calls (messages st) (job_title st) = (r, S calls)
       ∧ interact lower_table json_loads client (Some st) FinishInterview calls
         = Run (Some st') (S calls) [] false None
       ∧ interview_complete st' = true ∧ ksao_result st' = Some r
       ∧ messages st' = messages st ∧ coverage st' = coverage st).
Proof.
  intros Hs Hi. split.
  - intros Hlt. unfold interact, main. simpl. rewrite Hs, Hi. simpl.
    destruct (Nat.ltb_spec (exchanges (messages st)) 3); [|lia].
    unfold below_sidebar. by destruct (_ && _).
  - intros Hge.
    destruct (generate_synthesis json_loads client calls (messages st) (job_title st))
      as [r c] eqn:E.
    pose proof (generate_synthesis_calls calls (messages st) (job_title st)) as Hc.
    rewrite E in Hc. simpl in Hc. subst c.
    exists r, (with_result r st). split; [done|]. split; [|done].
    unfold interact, main. simpl. rewrite Hs, Hi. simpl.
    destruct (Nat.ltb_spec (exchanges (messages st)) 3); [lia|].
    rewrite E. simpl. rewrite Hs, Hi. simpl.
    unfold below_sidebar. simpl. by destruct (negb _).
Qed.

(** Claim C9. When the call to the generation service raises,
    [call_llm] makes no second call and raises nothing: it returns
    [Technical issue: ] followed by the first 50 characters of the
    description of the failure, and the interview turn appends that
    string as the assistant's message and leaves the session in the
    interview. *)
Theorem call_failure_is_absorbed st calls prompt e :
  (∀ req, client calls req = Raised e) →
  (∀ ms system,
     call_llm client calls ms system
     = (lit "Technical issue: " ++ take 50 (description e), S calls))
  ∧ (setup_complete st = true → initialized st = true →
     interview_complete st = false → has_areas (coverage st) → prompt ≠ [] →
     ∃ st',
       interact lower_table json_loads client (Some st) (ChatInput prompt) calls
       = Run (Some st') (S calls) [] false None
       ∧ messages st'
         = messages st
             ++ [Message user prompt;
                 Message assistant (lit "Technical issue: " ++ take 50 (description e))]
       ∧ interview_complete st' = false).
Proof.
  intros Hraise.
  assert (∀ ms system,
     call_llm client calls ms system
     = (lit "Technical issue: " ++ take 50 (description e), S calls)) as Hcall.
  { intros ms system. unfold call_llm. rewrite Hraise. by rewrite slice_take. }
  split; [done|]. intros Hs Hi Hc Ha Hp.
  unfold interact, main. simpl. rewrite Hs, Hi. simpl.
  unfold below_sidebar. rewrite Hc. simpl.
  destruct prompt as [|c prompt]; [done|]. simpl truthy. cbv iota.
  unfold chat_turn.
  destruct (update_coverage lower_table (c :: prompt) (coverage (push _ st)))
    as [cov o] eqn:E.
  pose proof (update_coverage_total (c :: prompt) (coverage st) Ha) as Ht.
  simpl in E. rewrite E in Ht. simpl in Ht. subst o.
  rewrite Hcall. simpl. eexists. split; [reflexivity|]. simpl.
  split; [by rewrite <- app_assoc|done].
Qed.
End Script.

(** * Further properties of the program *)

(** ** More on the coverage tracker *)

Lemma dict_alter_keys {V} (f : V → V) k (d : dict V) : (dict_alter f k d).*1 = d.*1.
Proof.
  induction d as [|[k0 v] d IH]; csimpl; [done|].
  case_decide; csimpl; [done|]. by rewrite IH.
Qed.

Lemma dict_alter_names k (d : dict area) :
  map (λ item, name item.2) (dict_alter mark_covered k d) = map (λ item, name item.2) d.
Proof.
  induction d as [|[k0 v] d IH]; simpl; [done|].
  case_decide; simpl; [done|]. by rewrite IH.
Qed.

Lemma dict_get_None {V} (d : dict V) k : dict_get d k = None ↔ k ∉ d.*1.
Proof.
  induction d as [|[k0 v] d IH]; csimpl.
  - split; [intros _; apply not_elem_of_nil|done].
  - rewrite not_elem_of_cons. case_decide as Hk.
    + split; [done|]. by intros [? _].
    + rewrite IH. split; [by intros ?; split; [congruence|]|by intros [_ ?]].
Qed.

Lemma dict_alter_map {V} (f : V → V) k (d : dict V) :
  NoDup d.*1 →
  dict_alter f k d = map (λ item, if decide (item.1 = k) then (item.1, f item.2) else item) d.
Proof.
  induction d as [|[k0 v] d IH]; csimpl; [done|].
  rewrite NoDup_cons. intros [Hk Hd]. case_decide; csimpl.
  - f_equal. subst. clear IH. induction d as [|[k1 v1] d IH]; csimpl; [done|].
    csimpl in Hk. apply not_elem_of_cons in Hk as [Hne Hk].
    apply NoDup_cons in Hd as [_ Hd]. rewrite decide_False by done.
    f_equal. by apply IH.
  - f_equal. by apply IH.
Qed.

Lemma coverage_loop_keys m cs coverage :
  (coverage_loop m cs coverage).1.*1 = coverage.*1
  ∧ map (λ item, name item.2) (coverage_loop m cs coverage).1
    = map (λ item, name item.2) coverage.
Proof.
  revert coverage. induction cs as [|[k words] cs IH]; intros coverage; simpl; [done|].
  destruct (any_in words m); [|apply IH].
  destruct (dict_get coverage k); [|done].
  destruct (IH (dict_alter mark_covered k coverage)) as [-> ->].
  by rewrite dict_alter_keys, dict_alter_names.
Qed.

Lemma coverage_loop_map m cs coverage coverage' :
  NoDup coverage.*1 →
  coverage_loop m cs coverage = (coverage', None) →
  coverage' = map (mark_hit m cs) coverage.
Proof.
  revert coverage. induction cs as [|[k words] cs IH]; intros coverage Hnd; simpl.
  - intros [= <-]. unfold mark_hit. simpl. clear Hnd.
    induction coverage as [|[k0 a] d IHd]; simpl; [done|]. by f_equal.
  - destruct (any_in words m) eqn:Ew.
    + destruct (dict_get coverage k) eqn:E; [|done]. intros H.
      apply IH in H; [|by rewrite dict_alter_keys]. rewrite H, dict_alter_map by done.
      rewrite map_map. apply map_ext. intros [k0 v0]. unfold mark_hit. simpl.
      rewrite Ew, andb_true_r. destruct (decide (k0 = k)) as [->|Hne]; simpl.
      * rewrite bool_decide_eq_true_2 by done. simpl. by destruct (hit m cs k).
      * by rewrite bool_decide_eq_false_2 by done.
    + intros H. apply IH in H; [|done]. rewrite H. apply map_ext. intros [k0 v0].
      unfold mark_hit. simpl. by rewrite Ew, andb_false_r.
Qed.

Lemma coverage_loop_error m cs coverage coverage' key :
  coverage_loop m cs coverage = (coverage', Some key) →
  dict_get coverage key = None
  ∧ ∃ words, (key, words) ∈ cs ∧ any_in words m = true.
Proof.
  revert coverage. induction cs as [|[k words] cs IH]; intros coverage; simpl; [done|].
  destruct (any_in words m) eqn:Ew.
  - destruct (dict_get coverage k) eqn:E.
    + intros H. destruct (IH _ H) as (Hn & w & Hin & Hw). split.
      * rewrite dict_get_alter in Hn. case_decide; [|done]. subst.
        rewrite E in Hn. done.
      * exists w. split; [by right|done].
    + intros [= <- <-]. split; [done|]. exists words. split; [by left|done].
  - intros H. destruct (IH _ H) as (Hn & w & Hin & Hw). split; [done|].
    exists w. split; [by right|done].
Qed.

Section CoverageAlgebra.
Variable lower_table : str → N → str → str.

Lemma update_coverage_keeps msg coverage :
  (update_coverage lower_table msg coverage).1.*1 = coverage.*1
  ∧ map (λ item, name item.2) (update_coverage lower_table msg coverage).1
    = map (λ item, name item.2) coverage.
Proof. apply coverage_loop_keys. Qed.

(** Property X1. [update_coverage] neither adds nor removes an area
    and changes no display name, whatever dict and message it is
    given and whether or not it stops on a missing key. *)
Theorem update_coverage_keeps_areas msg coverage :
  (update_coverage lower_table msg coverage).1.*1 = coverage.*1
  ∧ map (λ item, name item.2) (update_coverage lower_table msg coverage).1
    = map (λ item, name item.2) coverage.
Proof. apply coverage_loop_keys. Qed.

(** Property X2. [update_coverage] raises [KeyError] only for a key
    of its table that the dict lacks and one of whose keywords occurs
    in the lower-cased message; when it returns, every area whose
    keyword occurs is in the dict. *)
Theorem update_coverage_key_error msg coverage :
  match update_coverage lower_table msg coverage with
  | (_, Some key) =>
      (key ∉ coverage.*1)
      ∧ ∃ words, (key, words) ∈ checks ∧ any_in words (lower lower_table msg) = true
  | (_, None) =>
      ∀ key words, (key, words) ∈ checks →
        any_in words (lower lower_table msg) = true → key ∈ (coverage.*1)
  end.
Proof.
  unfold update_coverage.
  destruct (coverage_loop _ checks coverage) as [c [key|]] eqn:E.
  - apply coverage_loop_error in E as [Hn Hw]. by rewrite <- dict_get_None.
  - intros key words Hin Hw.
    destruct (coverage_loop_ok _ _ _ _ key E) as [_ Hs].
    rewrite (hit_unique _ _ _ words checks_NoDup Hin) in Hs.
    destruct (Hs Hw) as [a Ha].
    destruct (decide (key ∈ coverage.*1)) as [|Hn]; [done|].
    apply dict_get_None in Hn. congruence.
Qed.

Lemma dict_get_is_Some {V} (d : dict V) k : is_Some (dict_get d k) ↔ k ∈ (d.*1).
Proof.
  rewrite <- not_eq_None_Some, dict_get_None.
  destruct (decide (k ∈ (d.*1))); [|done]. split; [done|]. by intros _ ?.
Qed.

Lemma has_areas_keys coverage coverage' :
  coverage'.*1 = coverage.*1 → has_areas coverage → has_areas coverage'.
Proof.
  intros Hk H. unfold has_areas in *. eapply Forall_impl; [exact H|]. intros c.
  by rewrite !dict_get_is_Some, Hk.
Qed.

Lemma update_coverage_keys msg coverage :
  (update_coverage lower_table msg coverage).1.*1 = coverage.*1.
Proof. apply coverage_loop_keys. Qed.

Lemma has_areas_update msg coverage :
  has_areas coverage → has_areas (update_coverage lower_table msg coverage).1.
Proof. apply has_areas_keys, coverage_loop_keys. Qed.

Lemma update_coverage_flag msg coverage key words :
  has_areas coverage → (key, words) ∈ checks →
  is_covered (update_coverage lower_table msg coverage).1 key
  = is_covered coverage key || any_in words (lower lower_table msg).
Proof.
  intros Ha Hin.
  pose proof (update_coverage_total lower_table msg coverage Ha) as Ht.
  destruct (update_coverage lower_table msg coverage) as [c o] eqn:E.
  simpl in Ht. subst o. unfold update_coverage in E.
  destruct (coverage_loop_ok _ _ _ _ key E) as [Hg Hs].
  rewrite (hit_unique _ _ _ words checks_NoDup Hin) in Hg, Hs.
  unfold is_covered. simpl. rewrite Hg.
  destruct (dict_get coverage key) as [a|] eqn:Ea; simpl.
  - destruct (any_in words _); simpl; [by rewrite orb_true_r|by rewrite orb_false_r].
  - destruct (any_in words _); [|done]. by destruct (Hs eq_refl).
Qed.

Lemma feed_has_areas msgs coverage :
  has_areas coverage → has_areas (feed lower_table msgs coverage).
Proof.
  revert coverage. induction msgs as [|msg msgs IH]; intros coverage H; [done|].
  simpl. by apply IH, has_areas_update.
Qed.

(** Property X3. After a whole sequence of user messages, an area is
    covered exactly when it was covered at the start or one of the
    messages, lower-cased, contains one of its keywords. *)
Theorem feed_flag msgs coverage key words :
  has_areas coverage → (key, words) ∈ checks →
  is_covered (feed lower_table msgs coverage) key
  = is_covered coverage key
    || existsb (λ msg, any_in words (lower lower_table msg)) msgs.
Proof.
  intros Ha Hin. revert coverage Ha.
  induction msgs as [|msg msgs IH]; intros coverage Ha; simpl.
  - by rewrite orb_false_r.
  - change (fold_left _ msgs ?c) with (feed lower_table msgs c).
    rewrite IH by by apply has_areas_update.
    rewrite (update_coverage_flag msg coverage key words) by done. by rewrite orb_assoc.
Qed.

Lemma update_coverage_map msg coverage :
  NoDup (coverage.*1) → has_areas coverage →
  (update_coverage lower_table msg coverage).1
  = map (mark_hit (lower lower_table msg) checks) coverage.
Proof.
  intros Hnd Ha.
  pose proof (update_coverage_total lower_table msg coverage Ha) as Ht.
  destruct (update_coverage lower_table msg coverage) as [c o] eqn:E.
  simpl in *. subst o. by apply coverage_loop_map.
Qed.

Lemma mark_hit_comm m1 m2 item :
  mark_hit m1 checks (mark_hit m2 checks item) = mark_hit m2 checks (mark_hit m1 checks item).
Proof.
  destruct item as [k a]. unfold mark_hit. cbn [fst snd].
  by destruct (hit m1 checks k), (hit m2 checks k).
Qed.

Lemma mark_hit_keys m coverage : (map (mark_hit m checks) coverage).*1 = coverage.*1.
Proof. induction coverage as [|[k a] d IH]; csimpl; [done|]. by rewrite IH. Qed.

Lemma mark_hit_NoDup m coverage :
  NoDup (coverage.*1) → NoDup ((map (mark_hit m checks) coverage).*1).
Proof. by rewrite mark_hit_keys. Qed.

Lemma mark_hit_has_areas m coverage :
  has_areas coverage → has_areas (map (mark_hit m checks) coverage).
Proof. apply has_areas_keys, mark_hit_keys. Qed.

Lemma feed_cons_map msg msgs coverage :
  NoDup (coverage.*1) → has_areas coverage →
  feed lower_table (msg :: msgs) coverage
  = feed lower_table msgs (map (mark_hit (lower lower_table msg) checks) coverage).
Proof. intros Hnd Ha. simpl. by rewrite update_coverage_map. Qed.

(** Property X4. The coverage reached does not depend on the order
    in which the user messages arrive. *)
Theorem feed_order_irrelevant msgs msgs' coverage :
  NoDup (coverage.*1) → has_areas coverage →
  msgs ≡ₚ msgs' →
  feed lower_table msgs coverage = feed lower_table msgs' coverage.
Proof.
  intros Hnd Ha Hp. revert coverage Hnd Ha.
  induction Hp as [|msg l l' _ IH|a b l|l1 l2 l3 _ IH1 _ IH2]; intros coverage Hnd Ha.
  - done.
  - rewrite !feed_cons_map by done.
    apply IH; [by apply mark_hit_NoDup|by apply mark_hit_has_areas].
  - rewrite (feed_cons_map b (a :: l) coverage) by done.
    rewrite (feed_cons_map a (b :: l) coverage) by done.
    rewrite (feed_cons_map a l), (feed_cons_map b l)
      by (by apply mark_hit_NoDup || by apply mark_hit_has_areas).
    f_equal. rewrite !map_map. apply map_ext. intros item. apply mark_hit_comm.
  - by rewrite IH1, IH2.
Qed.

(** Property X5. Feeding the same message to [update_coverage] a
    second time changes nothing. *)
Theorem update_coverage_idempotent msg coverage :
  NoDup (coverage.*1) → has_areas coverage →
  update_coverage lower_table msg (update_coverage lower_table msg coverage).1
  = ((update_coverage lower_table msg coverage).1, None).
Proof.
  intros Hnd Ha.
  pose proof (has_areas_update msg coverage Ha) as Ha'.
  pose proof (update_coverage_total lower_table msg _ Ha') as Ht.
  destruct (update_coverage lower_table msg (update_coverage lower_table msg coverage).1)
    as [c o] eqn:E.
  simpl in Ht. subst o. f_equal.
  change c with (c, @None str).1. rewrite <- E.
  rewrite (update_coverage_map msg (update_coverage lower_table msg coverage).1).
  - rewrite update_coverage_map by done. rewrite map_map.
    apply map_ext. intros [k a]. unfold mark_hit. cbn [fst snd].
    by destruct (hit _ checks k).
  - by rewrite update_coverage_keys.
  - done.
Qed.

Lemma lower_ascii msg : is_ascii msg → lower lower_table msg = map ascii_lower msg.
Proof.
  intros H. unfold lower.
  rewrite <- (app_nil_r msg) at 1. rewrite lower_from_ascii by done.
  by rewrite app_nil_r.
Qed.

(** Property X6. Two ASCII messages that differ only in the case of
    their letters give the same coverage update, whatever the Unicode
    tables of [str.lower] are. *)
Theorem update_coverage_ignores_case msg msg' coverage :
  is_ascii msg → is_ascii msg' →
  map ascii_lower msg = map ascii_lower msg' →
  update_coverage lower_table msg coverage = update_coverage lower_table msg' coverage.
Proof.
  intros H1 H2 Heq. unfold update_coverage. by rewrite !lower_ascii, Heq.
Qed.
End CoverageAlgebra.

(** ** More on the synthesis and the prompt *)

Section SynthesisFailures.
Variable json_loads : str → outcome (dict json).
Variable client : nat → request → outcome str.

Lemma on_exception_error e : ∃ msg, dict_get (on_exception e) (lit "error") = Some (JStr msg).
Proof.
  unfold on_exception. destruct (is_json_decode_error e); cbn [dict_get];
    rewrite decide_True by done; eauto.
Qed.

(** Property X11. [generate_synthesis] always returns, after exactly
    one call to the service: either the document that [json.loads] gave
    for the text between the first opening and the last closing brace,
    or a dict with a string under [error]. *)
Theorem synthesis_always_answers calls messages job_title :
  ∃ r,
    generate_synthesis json_loads client calls messages job_title = (r, S calls)
    ∧ ((∃ text,
          client calls (synthesis_request messages job_title) = Returned text
          ∧ (0 ≤ find text (lit "{") < rfind text (lit "}") + 1)%Z
          ∧ json_loads (slice text (find text (lit "{")) (rfind text (lit "}") + 1))
            = Returned r)
       ∨ ∃ msg, dict_get r (lit "error") = Some (JStr msg)).
Proof.
  unfold generate_synthesis.
  destruct (client calls (synthesis_request messages job_title)) as [text|e] eqn:Ec.
  - unfold extract_document.
    destruct (Z.leb_spec 0 (find text (lit "{"))) as [Hs|]; cbn [andb].
    + destruct (Z.ltb_spec (find text (lit "{")) (rfind text (lit "}") + 1)) as [He|].
      * destruct (json_loads _) as [doc|e] eqn:Ej.
        -- exists doc. split; [done|]. left. exists text. split_and!; done.
        -- eexists. split; [done|]. right. apply on_exception_error.
      * eexists. split; [done|]. right. cbn [dict_get]. rewrite decide_True by done. eauto.
    + eexists. split; [done|]. right. cbn [dict_get]. rewrite decide_True by done. eauto.
  - eexists. split; [done|]. right. apply on_exception_error.
Qed.

(** Property X12. The two other failure modes of [generate_synthesis]:
    a failed call gives the record with the description of the failure
    under [error]; a braced region that [json.loads] rejects gives
    [JSON parse error: ] followed by the description, and the raw text
    is not kept. *)
Theorem synthesis_failure_records calls messages job_title :
  (∀ e, client calls (synthesis_request messages job_title) = Raised e →
        is_json_decode_error e = false →
        generate_synthesis json_loads client calls messages job_title
        = ([(lit "error", JStr (description e))], S calls))
  ∧ (∀ pre body post e,
        client calls (synthesis_request messages job_title)
          = Returned (pre ++ lit "{" ++ body ++ lit "}" ++ post) →
        123%N ∉ pre → 125%N ∉ post →
        json_loads (lit "{" ++ body ++ lit "}") = Raised e →
        is_json_decode_error e = true →
        generate_synthesis json_loads client calls messages job_title
        = ([(lit "error", JStr (lit "JSON parse error: " ++ description e))], S calls)).
Proof.
  unfold generate_synthesis. split.
  - intros e -> He. unfold on_exception. by rewrite He.
  - intros pre body post e -> Hpre Hpost Hj He.
    rewrite extract_document_region, Hj by done. unfold on_exception. by rewrite He.
Qed.
End SynthesisFailures.

Lemma filter_all {A} (f : A → bool) l :
  Forall (λ x, f x = true) l → List.filter f l = l.
Proof. induction 1 as [|x l Hx _ IH]; simpl; [done|]. by rewrite Hx, IH. Qed.

Lemma filter_none {A} (f : A → bool) l :
  Forall (λ x, f x = false) l → List.filter f l = [].
Proof. induction 1 as [|x l Hx _ IH]; simpl; [done|]. by rewrite Hx. Qed.

(** Property X13. [format_coverage] when one of its two lists is
    empty: with no area covered it says [None yet] and lists every
    name in the order of the dict, with every area covered it lists
    them as explored and says [All covered]; for an empty dict it says
    both. *)
Theorem format_coverage_fallbacks (coverage : dict area) :
  (Forall (λ item, covered item.2 = false) coverage →
   format_coverage coverage
   = lit "Explored: None yet. Still need: "
       ++ match coverage with
          | [] => lit "All covered"
          | _ => join (lit ", ") (map (λ item, name item.2) coverage)
          end
       ++ lit ".")
  ∧ (Forall (λ item, covered item.2 = true) coverage →
     format_coverage coverage
     = lit "Explored: "
         ++ match coverage with
            | [] => lit "None yet"
            | _ => join (lit ", ") (map (λ item, name item.2) coverage)
            end
         ++ lit ". Still need: All covered.").
Proof.
  unfold format_coverage, dict_values. split; intros H.
  - rewrite filter_none, filter_all.
    + rewrite map_map. by destruct coverage.
    + apply Forall_map. eapply Forall_impl; [exact H|]. intros item ->. done.
    + apply Forall_map. done.
  - rewrite filter_all, filter_none.
    + rewrite map_map. by destruct coverage.
    + apply Forall_map. eapply Forall_impl; [exact H|]. intros item ->. done.
    + apply Forall_map. done.
Qed.

(** ** More on the sanitizer *)

Lemma ends_in_terminal_take text i :
  last_terminal text = Some i → ends_in_terminal (take (S i) text) = true.
Proof.
  intros H. apply last_where_lookup in H as (c & Hc & Ht).
  unfold ends_in_terminal. rewrite last_lookup, length_take.
  pose proof (lookup_lt_Some _ _ _ Hc).
  rewrite Nat.min_l by lia. simpl. rewrite lookup_take_lt by lia. by rewrite Hc.
Qed.

Lemma drop_incomplete_idem text :
  drop_incomplete (drop_incomplete text) = drop_incomplete text.
Proof.
  rewrite (drop_incomplete_spec text).
  destruct (ends_in_terminal text) eqn:E.
  - by rewrite drop_incomplete_spec, E.
  - destruct (last_terminal text) as [[|i]|] eqn:El.
    + by rewrite drop_incomplete_spec, E, El.
    + by rewrite drop_incomplete_spec, (ends_in_terminal_take _ _ El).
    + by rewrite drop_incomplete_spec, E, El.
Qed.

Lemma sanitize_nonempty text : sanitize text ≠ [].
Proof.
  unfold sanitize. destruct (drop_incomplete _) eqn:E; simpl; [|done].
  by vm_compute.
Qed.

(** Property X7. The loop of [call_llm] over the seven markers, which
    cuts and strips once per marker found, amounts to one cut: at the
    earliest occurrence of any marker in the generated text, followed
    by one strip; a text without marker is left as it is, whitespace
    included. *)
Theorem marker_loop_is_one_cut text :
  strip_markers MARKERS text
  = match earliest MARKERS text with
    | Some p => strip (take p text)
    | None => text
    end.
Proof. apply strip_markers_cut. Qed.

(** Property X8. Sanitizing twice is sanitizing once, for every
    text. *)
Theorem sanitize_idempotent text : sanitize (sanitize text) = sanitize text.
Proof.
  destruct (sanitize_cases text) as [->|[n Hn]]; [by vm_compute|].
  pose proof (sanitize_nonempty text) as Hne.
  assert (strip_markers MARKERS (sanitize text) = sanitize text) as Hm.
  { apply strip_markers_absent, Forall_forall. intros m Hm. by apply sanitize_no_marker. }
  assert (drop_incomplete (sanitize text) = sanitize text) as Hd.
  { unfold sanitize.
    destruct (truthy (drop_incomplete (strip_markers MARKERS text))) eqn:E.
    - apply drop_incomplete_idem.
    - by vm_compute. }
  unfold sanitize at 1. rewrite Hm, Hd. by destruct (sanitize text).
Qed.

(** Property X9. What the sanitizer returns is never empty, and it is
    either the fallback question or a contiguous piece of the generated
    text. *)
Theorem sanitize_returns_piece_of_input text :
  sanitize text ≠ []
  ∧ (sanitize text = FALLBACK ∨ ∃ a b, text = a ++ sanitize text ++ b).
Proof.
  split; [apply sanitize_nonempty|].
  destruct (sanitize_cases text) as [?|[n Hn]]; [by left|]. right. rewrite Hn.
  unfold cut_and_strip. destruct (earliest MARKERS text) as [p|].
  - destruct (strip_decomp (take p text)) as (ws1 & ws2 & Hd & _ & _).
    exists ws1, (drop n (strip (take p text)) ++ ws2 ++ drop p text).
    rewrite <- (take_drop p text) at 1. rewrite Hd at 1.
    rewrite <- (take_drop n (strip (take p text))) at 1.
    by rewrite <- !app_assoc.
  - exists [], (drop n text). simpl. by rewrite take_drop.
Qed.

(** Property X10. Lines 83-86 of [call_llm]: when the last full stop,
    question mark or exclamation mark of the text stands after its
    first character, the text is cut after that mark unless it already
    ends there, and the result ends in such a mark; when the text has
    no such mark, or only as its first character, it is returned as it
    is. *)
Theorem drop_incomplete_cases text :
  match last_terminal text with
  | Some (S i) =>
      drop_incomplete text = (if ends_in_terminal text then text else take (S (S i)) text)
      ∧ ends_in_terminal (drop_incomplete text) = true
  | _ => drop_incomplete text = text
  end.
Proof.
  rewrite drop_incomplete_spec.
  destruct (last_terminal text) as [[|i]|] eqn:El.
  - by destruct (ends_in_terminal text).
  - destruct (ends_in_terminal text) eqn:E; [done|].
    split; [done|]. by apply ends_in_terminal_take.
  - by destruct (ends_in_terminal text).
Qed.

(** ** More on the script *)

Ltac fields :=
  cbn [messages coverage interview_complete ksao_result initialized job_context
       job_title setup_complete push with_coverage with_setup with_initialized
       with_result run_state run_calls run_rerun run_warnings run_key_error
       default from_option id negb andb fst snd].

Section ScriptRuns.
Variable lower_table : str → N → str → str.
Variable json_loads : str → outcome (dict json).
Variable client : nat → request → outcome str.

(** Property X14. Reset, from any session past the setup screen, gives
    back the initial session: empty transcript, no area covered, no
    title, setup to be done again; no call is made. *)
Theorem reset_returns_to_setup st calls :
  setup_complete st = true →
  interact lower_table json_loads client (Some st) Reset calls = Run (Some defaults) calls [] false None.
Proof. intros Hs. unfold interact, main. simpl. by rewrite Hs. Qed.

(** Property X15. Before the setup is complete nothing but Start
    Interview has an effect: the script returns at the setup screen,
    the session is unchanged and the service is not called. *)
Theorem setup_screen_ignores_other_events st ev calls :
  setup_complete st = false →
  (∀ title context, ev ≠ StartInterview title context) →
  interact lower_table json_loads client (Some st) ev calls = Run (Some st) calls [] false None.
Proof.
  intros Hs Hev. unfold interact, main. simpl. rewrite Hs. simpl.
  destruct ev; try done. by destruct (Hev title context).
Qed.

(** Property X16. Start Interview with a title that is blank shows a
    warning and changes nothing; otherwise the stripped title and the
    description are stored and the rerun opens the transcript with the
    introduction, which mentions the description only when there is
    one. *)
Theorem start_interview st title context calls :
  setup_complete st = false → initialized st = false →
  interact lower_table json_loads client (Some st) (StartInterview title context) calls
  = if truthy (strip title)
    then Run (Some (Session
                      (messages st
                         ++ [Message assistant (get_intro (strip title) (truthy context))])
                      (coverage st) (interview_complete st) (ksao_result st)
                      true context (strip title) true))
           calls [] false None
    else Run (Some st) calls [lit "Please enter a job title."] false None.
Proof.
  intros Hs Hi. unfold interact, main. simpl. rewrite Hs. simpl.
  destruct (truthy (strip title)) eqn:E; simpl; [|done].
  rewrite Hi. simpl. unfold below_sidebar. simpl.
  by destruct (interview_complete st && _).
Qed.

(** Property X17. Once the interview is complete with a non-empty
    synthesis result, a chat message is not processed: no message is
    appended, no call is made. *)
Theorem complete_session_ignores_chat st calls prompt r :
  setup_complete st = true → initialized st = true →
  interview_complete st = true → ksao_result st = Some r → r ≠ [] →
  interact lower_table json_loads client (Some st) (ChatInput prompt) calls = Run (Some st) calls [] false None.
Proof.
  intros Hs Hi Hc Hr Hne. unfold interact, main. simpl. rewrite Hs, Hi. simpl.
  unfold below_sidebar. rewrite Hc, Hr. simpl.
  by rewrite bool_decide_eq_false_2.
Qed.

(** Property X18. An interview turn appends the user message and one
    assistant message, updates the coverage with the user message and
    makes exactly one call, which carries the transcript with the new
    user message and a system prompt built from the updated coverage
    and the exchange count that includes the new message. *)
Theorem chat_turn_effect st calls prompt :
  setup_complete st = true → initialized st = true → interviewing st →
  has_areas (coverage st) → prompt ≠ [] →
  let transcript := messages st ++ [Message user prompt] in
  let coverage' := (update_coverage lower_table prompt (coverage st)).1 in
  let system :=
    INTERVIEWER_SYSTEM_PROMPT (job_title st)
      (if truthy (job_context st)
       then lit "FORMAL DESCRIPTION:" ++ nl ++ job_context st ++ nl ++ nl
              ++ lit "Compare against this."
       else [])
      (format_coverage coverage')
      (of_nat (S (exchanges (messages st)))) (of_nat TARGET_EXCHANGES) in
  let reply := (call_llm client calls transcript system).1 in
  interact lower_table json_loads client (Some st) (ChatInput prompt) calls
  = Run (Some (Session (transcript ++ [Message assistant reply]) coverage'
                 (interview_complete st) (ksao_result st) true
                 (job_context st) (job_title st) true))
      (S calls) [] false None.
Proof.
  intros Hs Hi Hint Ha Hp. cbv zeta.
  assert (exchanges (messages st ++ [Message user prompt])
          = S (exchanges (messages st))) as Hex.
  { unfold exchanges. rewrite List.filter_app, length_app. simpl. lia. }
  unfold interact, main. fields. rewrite Hs, Hi. fields.
  unfold below_sidebar.
  assert (interview_complete st
          && match ksao_result st with
             | Some r => negb (bool_decide (r = []))
             | None => false
             end = false) as ->.
  { destruct Hint as [->|[->| ->]]; [done|by rewrite andb_false_r|].
    by rewrite andb_false_r. }
  destruct prompt as [|c prompt]; [done|]. cbn [truthy].
  unfold chat_turn. fields.
  pose proof (update_coverage_total lower_table (c :: prompt) (coverage st) Ha) as Ht.
  destruct (update_coverage lower_table (c :: prompt) (coverage st))
    as [cov o] eqn:E.
  cbn [snd] in Ht. subst o. fields. rewrite Hex.
  destruct (call_llm client calls _ _) as [reply calls'] eqn:Ec. fields.
  assert (calls' = S calls) as ->.
  { unfold call_llm in Ec. destruct (client _ _); by injection Ec as _ <-. }
  unfold push, with_coverage. fields. by rewrite Hs, Hi.
Qed.

Lemma exchanges_snoc_user ms content :
  exchanges (ms ++ [Message user content]) = S (exchanges ms).
Proof. unfold exchanges. rewrite List.filter_app, length_app. simpl. lia. Qed.

Lemma exchanges_snoc_assistant ms content :
  exchanges (ms ++ [Message assistant content]) = exchanges ms.
Proof. unfold exchanges. rewrite List.filter_app, length_app. simpl. lia. Qed.

Lemma call_llm_calls calls ms system : (call_llm client calls ms system).2 = S calls.
Proof. unfold call_llm. by destruct (client _ _). Qed.

Lemma chat_turn_transcript st calls warnings prompt :
  let r := chat_turn lower_table client st calls warnings prompt in
  ∃ st', run_state r = Some st'
         ∧ messages st `prefix_of` messages st'
         ∧ exchanges (messages st') = S (exchanges (messages st))
         ∧ calls ≤ run_calls r ∧ run_rerun r = false.
Proof.
  cbv zeta. unfold chat_turn. fields.
  destruct (update_coverage lower_table prompt (coverage st)) as [cov [key|]].
  - eexists. split; [done|]. unfold with_coverage, push. fields.
    split_and!; [by apply prefix_app_r|by rewrite exchanges_snoc_user|done..].
  - destruct (call_llm client calls _ _) as [reply calls'] eqn:Ec.
    apply (f_equal snd) in Ec. rewrite call_llm_calls in Ec. cbn [snd] in Ec. subst calls'.
    eexists. split; [done|]. unfold with_coverage, push. fields.
    split_and!; [|by rewrite exchanges_snoc_assistant, exchanges_snoc_user|lia|done].
    rewrite <- app_assoc. by apply prefix_app_r.
Qed.

Lemma below_sidebar_transcript st ev calls warnings :
  let r := below_sidebar lower_table client st ev calls warnings in
  ∃ st', run_state r = Some st'
         ∧ messages st `prefix_of` messages st'
         ∧ exchanges (messages st) ≤ exchanges (messages st')
         ∧ calls ≤ run_calls r ∧ run_rerun r = false.
Proof.
  cbv zeta. unfold below_sidebar.
  destruct (interview_complete st && _); [by exists st|].
  destruct ev; try by exists st.
  destruct (truthy prompt); [|by exists st].
  destruct (chat_turn_transcript st calls warnings prompt) as (st' & ? & ? & ? & ? & ?).
  exists st'. split_and!; [done..|lia|done|done].
Qed.

Lemma main_transcript state ev calls :
  ev ≠ Reset →
  let r := main lower_table json_loads client state ev calls in
  ∃ st', run_state r = Some st'
         ∧ messages (default defaults state) `prefix_of` messages st'
         ∧ exchanges (messages (default defaults state)) ≤ exchanges (messages st')
         ∧ calls ≤ run_calls r.
Proof.
  intros Hev. cbv zeta. unfold main.
  set (st := default defaults state).
  destruct (setup_complete st) eqn:Hs; cbn [negb].
  - set (st1 := if initialized st then st else _).
    assert (messages st `prefix_of` messages st1
            ∧ exchanges (messages st) = exchanges (messages st1)) as [Hp He].
    { unfold st1. destruct (initialized st); [done|].
      unfold with_initialized, push. fields.
      split; [by apply prefix_app_r|by rewrite exchanges_snoc_assistant]. }
    assert (∀ warnings,
              ∃ st', run_state (below_sidebar lower_table client st1 ev calls warnings)
                     = Some st'
                ∧ messages st `prefix_of` messages st'
                ∧ exchanges (messages st) ≤ exchanges (messages st')
                ∧ calls ≤ run_calls (below_sidebar lower_table client st1 ev calls warnings))
      as Hbelow.
    { intros warnings.
      destruct (below_sidebar_transcript st1 ev calls warnings) as (st' & ? & ? & ? & ? & _).
      exists st'. split_and!; [done|by etrans|lia|done]. }
    destruct ev; try done.
    destruct (exchanges (messages st1) <? 3); [done|].
    destruct (generate_synthesis json_loads client calls (messages st1) (job_title st1))
      as [r calls'] eqn:E.
    apply (f_equal snd) in E. rewrite generate_synthesis_calls in E. cbn [snd] in E.
    subst calls'. eexists. split; [done|]. unfold with_result. fields.
    split_and!; [done|lia|lia].
  - destruct ev; try by exists st.
    destruct (truthy (strip title)); [|by exists st].
    eexists. split; [done|]. unfold with_setup. fields. done.
Qed.

(** Property X19. Whatever the session and whatever the action other
    than Reset, the transcript only grows at its end, the exchange
    count does not decrease and neither does the number of calls; this
    holds also for a run stopped by a [KeyError]. *)
Theorem transcript_append_only state ev calls :
  ev ≠ Reset →
  ∃ st',
    run_state (interact lower_table json_loads client state ev calls) = Some st'
    ∧ messages (default defaults state) `prefix_of` messages st'
    ∧ exchanges (messages (default defaults state)) ≤ exchanges (messages st')
    ∧ calls ≤ run_calls (interact lower_table json_loads client state ev calls).
Proof.
  intros Hev. unfold interact.
  destruct (main_transcript state ev calls Hev) as (st1 & H1 & Hp1 & He1 & Hc1).
  destruct (run_rerun _); [|by exists st1].
  rewrite H1.
  destruct (main_transcript (Some st1) NoEvent
              (run_calls (main lower_table json_loads client state ev calls)))
    as (st2 & H2 & Hp2 & He2 & Hc2); [done|].
  cbn [default from_option id] in *.
  exists st2. split_and!; [done|by etrans|lia|lia].
Qed.

Lemma well_formed_defaults : well_formed defaults.
Proof. unfold well_formed. simpl. split_and!; try done. Qed.

Lemma well_formed_has_areas st : well_formed st → has_areas (coverage st).
Proof.
  intros (Hk & _). unfold has_areas. apply Forall_forall. intros c Hc.
  apply dict_get_is_Some. rewrite Hk. revert c Hc. apply Forall_forall.
  apply (bool_decide_unpack _). by vm_compute.
Qed.

Lemma interact_None ev calls :
  interact lower_table json_loads client None ev calls
  = interact lower_table json_loads client (Some defaults) ev calls.
Proof. done. Qed.

Lemma interact_well_formed st ev calls :
  well_formed st →
  let r := interact lower_table json_loads client (Some st) ev calls in
  run_key_error r = None ∧ ∃ st', run_state r = Some st' ∧ well_formed st'.
Proof.
  intros Hwf. pose proof Hwf as (Hk & Hn & Hi & Hc & Hm). cbv zeta.
  unfold interact, main. fields.
  destruct (setup_complete st) eqn:Hs; cbn [negb].
  - rewrite Hi. destruct Hm as (Hjt & Hm0 & Hlen).
    assert (∀ ev' warnings, (∀ p, ev' ≠ ChatInput p) →
              below_sidebar lower_table client st ev' calls warnings
              = Run (Some st) calls warnings false None) as Hidle.
    { intros ev' warnings Hev. unfold below_sidebar.
      destruct (_ && _); [done|]. destruct ev'; try done. by destruct (Hev prompt). }
    destruct ev.
    + rewrite Hidle by done. fields. eauto.
    + rewrite Hidle by done. fields. eauto.
    + destruct (exchanges (messages st) <? 3).
      * rewrite Hidle by done. fields. eauto.
      * destruct (generate_synthesis _ _ _ _ _) as [r calls']. fields.
        rewrite Hs, Hi. fields. unfold below_sidebar. fields.
        assert (well_formed (with_result r st)) as Hwf'.
        { unfold well_formed, with_result. fields. rewrite Hs.
          split_and!; try done; try (split; by eauto). }
        destruct (negb _); fields; eauto.
    + fields. split; [done|]. exists defaults. split; [done|apply well_formed_defaults].
    + unfold below_sidebar. destruct (_ && _); [fields; eauto|].
      destruct (truthy prompt); [|fields; eauto].
      unfold chat_turn. fields.
      pose proof (update_coverage_total lower_table prompt (coverage st)
                    (well_formed_has_areas st Hwf)) as Ht.
      pose proof (update_coverage_keeps lower_table prompt (coverage st)) as [Hk' Hn'].
      destruct (update_coverage lower_table prompt (coverage st)) as [cov o].
      cbn [fst snd] in *. subst o.
      destruct (call_llm client calls _ _) as [reply calls']. fields.
      split; [done|]. eexists. split; [done|].
      unfold well_formed, push, with_coverage. fields. rewrite Hs.
      split_and!; try done; try congruence.
      * rewrite <- app_assoc. by apply lookup_app_l_Some.
      * rewrite !length_app, exchanges_snoc_assistant, exchanges_snoc_user. simpl. lia.
  - destruct ev; fields; eauto.
    destruct (truthy (strip title)) eqn:Et; fields; [|eauto].
    assert (initialized st = false) as Hi' by congruence. rewrite Hi'.
    unfold below_sidebar. fields.
    assert (well_formed
              (with_initialized
                 (push (Message assistant
                          (get_intro (job_title (with_setup (strip title) context st))
                             (truthy (job_context (with_setup (strip title) context st)))))
                    (with_setup (strip title) context st)))) as Hwf'.
    { unfold well_formed, with_initialized, push, with_setup. fields. rewrite Hm.
      split_and!; try done. by destruct (strip title). }
    destruct (_ && _); fields; eauto.
Qed.

(** Property X20. From a fresh session, whatever the operator does and
    whatever the service and [json.loads] answer, no run is stopped by
    a [KeyError] and every session state reached is well formed. *)
Theorem sessions_stay_well_formed evs calls :
  Forall (λ r, run_key_error r = None
               ∧ ∃ st, run_state r = Some st ∧ well_formed st)
    (play lower_table json_loads client None calls evs).
Proof.
  assert (∀ st calls, well_formed st →
            Forall (λ r, run_key_error r = None
                         ∧ ∃ st, run_state r = Some st ∧ well_formed st)
              (play lower_table json_loads client (Some st) calls evs)) as H.
  { induction evs as [|ev evs IH]; intros st c Hwf; [constructor|].
    cbn [play]. destruct (interact_well_formed st ev c Hwf) as (Hk & st' & Hst & Hwf').
    constructor; [eauto|]. rewrite Hst. by apply IH. }
  destruct evs as [|ev evs]; [constructor|].
  cbn [play]. rewrite interact_None.
  apply (H defaults calls well_formed_defaults).
Qed.
End ScriptRuns.

(** * The properties on the sample environment *)

Lemma coverage_monotonic_witness :
  is_covered (feed plain_lower_table [lit "In a typical week I plan the sprint."]
                COVERAGE_AREAS) (lit "core_responsibilities") = true
  ∧ ∀ more,
      is_covered (feed plain_lower_table
                    ([lit "In a typical week I plan the sprint."] ++ more)
                    COVERAGE_AREAS) (lit "core_responsibilities") = true.
Proof.
  split; [by vm_compute|].
  apply (coverage_monotonic plain_lower_table). by vm_compute.
Defined.

Lemma sanitize_drops_internal_witness :
  contains INTERNAL leaky_reply = true
  ∧ contains INTERNAL (sanitize leaky_reply) = false
  ∧ ∀ pre post, leaky_reply = pre ++ INTERNAL ++ post →
      sanitize leaky_reply = FALLBACK ∨ ∃ a b, pre = a ++ sanitize leaky_reply ++ b.
Proof.
  split; [by vm_compute|]. apply sanitize_drops_internal. by vm_compute.
Defined.

Lemma finish_needs_three_exchanges_witness :
  interact plain_lower_table sample_loads (scripted [Returned sample_reply])
    (Some (sample_session 2)) FinishInterview 0
  = Run (Some (sample_session 2)) 0 [lit "Complete at least 3 exchanges."] false None
  ∧ ∃ r st',
      generate_synthesis sample_loads (scripted [Returned sample_reply]) 0
        (messages (sample_session 3)) (job_title (sample_session 3)) = (r, 1)
      ∧ interact plain_lower_table sample_loads (scripted [Returned sample_reply])
          (Some (sample_session 3)) FinishInterview 0
        = Run (Some st') 1 [] false None
      ∧ interview_complete st' = true ∧ ksao_result st' = Some r
      ∧ messages st' = messages (sample_session 3)
      ∧ coverage st' = coverage (sample_session 3).
Proof.
  split.
  - apply (proj1 (finish_needs_three_exchanges plain_lower_table sample_loads
                    (scripted [Returned sample_reply]) (sample_session 2) 0
                    eq_refl eq_refl)).
    vm_compute. lia.
  - apply (proj2 (finish_needs_three_exchanges plain_lower_table sample_loads
                    (scripted [Returned sample_reply]) (sample_session 3) 0
                    eq_refl eq_refl)).
    vm_compute. lia.
Defined.

Lemma synthesis_parses_braced_region_witness :
  generate_synthesis sample_loads (scripted [Returned sample_reply]) 0
    (messages (sample_session 3)) (lit "Analyst")
  = (sample_document, 1).
Proof.
  apply (synthesis_parses_braced_region sample_loads (scripted [Returned sample_reply])
           0 _ _ (lit "Sure! ") sample_body (lit " thanks")).
  - reflexivity.
  - apply (bool_decide_unpack _). by vm_compute.
  - apply (bool_decide_unpack _). by vm_compute.
  - by vm_compute.
Defined.

Lemma synthesis_without_region_keeps_raw_witness :
  generate_synthesis sample_loads (scripted [Returned (lit "No summary available.")]) 0
    (messages (sample_session 3)) (lit "Analyst")
  = ([(lit "error", JStr (lit "No JSON found"));
      (lit "raw", JStr (lit "No summary available."))], 1)
  ∧ generate_synthesis sample_loads (scripted [Returned (lit "} jumbled {")]) 0
      (messages (sample_session 3)) (lit "Analyst")
    = ([(lit "error", JStr (lit "No JSON found"));
        (lit "raw", JStr (lit "} jumbled {"))], 1).
Proof.
  split.
  - apply synthesis_without_region_keeps_raw; [reflexivity|]. left. by vm_compute.
  - apply synthesis_without_region_keeps_raw; [reflexivity|]. right. by vm_compute.
Defined.

Lemma sanitize_amended_witness :
  (ends_in_terminal (cut_and_strip ragged_reply) = true
   ∨ last_terminal (cut_and_strip ragged_reply) ≠ Some 0)
  ∧ sanitize ragged_reply = amended_sanitize ragged_reply
  ∧ sanitize ragged_reply = lit "Sure.".
Proof.
  assert (ends_in_terminal (cut_and_strip ragged_reply) = true
          ∨ last_terminal (cut_and_strip ragged_reply) ≠ Some 0) as H.
  { right. vm_compute. discriminate. }
  split; [exact H|]. split; [exact (sanitize_amended ragged_reply H)|].
  by vm_compute.
Defined.

Lemma update_coverage_marks_witness :
  is_covered
    (update_coverage plain_lower_table (lit "So recently I had an example of that")
       COVERAGE_AREAS).1
    (lit "critical_incidents") = true.
Proof.
  refine (proj1 (proj2 (update_coverage_marks plain_lower_table
                          (lit "So recently I had an example of that") COVERAGE_AREAS
                          _ _))
            (lit "So ") (lit " of that") _).
  - by vm_compute.
  - reflexivity.
Defined.

Lemma sanitize_fixes_sanitized_witness :
  sanitize (lit "What tools do you use?") = lit "What tools do you use?".
Proof.
  apply sanitize_fixes_sanitized.
  - by vm_compute.
  - by vm_compute.
  - repeat constructor.
Defined.

Lemma call_failure_is_absorbed_witness :
  call_llm (scripted []) 0 [] [] = (lit "Technical issue: Connection error.", 1)
  ∧ ∃ st',
      interact plain_lower_table sample_loads (scripted [])
        (Some (sample_session 1)) (ChatInput (lit "And then?")) 0
      = Run (Some st') 1 [] false None
      ∧ messages st'
        = messages (sample_session 1)
            ++ [Message user (lit "And then?");
                Message assistant (lit "Technical issue: Connection error.")]
      ∧ interview_complete st' = false.
Proof.
  destruct (call_failure_is_absorbed plain_lower_table sample_loads (scripted [])
              (sample_session 1) 0 (lit "And then?")
              (Exn false (lit "Connection error.")) (λ _, eq_refl)) as [H1 H2].
  split; [exact (H1 [] [])|].
  apply H2; [reflexivity..| |by vm_compute].
  unfold has_areas. apply Forall_forall. intros c Hc.
  apply list_elem_of_In in Hc. simpl in Hc.
  repeat (destruct Hc as [<-|Hc]; [by vm_compute; eauto|]). done.
Defined.

(** ** The further properties on the sample environment *)

Lemma COVERAGE_AREAS_has_areas : has_areas COVERAGE_AREAS.
Proof. apply (well_formed_has_areas defaults), well_formed_defaults. Qed.

Lemma COVERAGE_AREAS_NoDup : NoDup (COVERAGE_AREAS.*1).
Proof. apply (bool_decide_unpack _). by vm_compute. Qed.

Lemma feed_flag_witness :
  is_covered (feed plain_lower_table [lit "hello"; lit "I use Python a lot"] COVERAGE_AREAS)
    (lit "technical_skills")
  = is_covered COVERAGE_AREAS (lit "technical_skills")
    || existsb
         (λ msg, any_in [lit "python"; lit "sql"; lit "tool"; lit "software";
                         lit "excel"; lit "code"]
                   (lower plain_lower_table msg))
         [lit "hello"; lit "I use Python a lot"].
Proof.
  apply feed_flag; [apply COVERAGE_AREAS_has_areas|].
  apply list_elem_of_In. simpl. tauto.
Defined.

Lemma feed_order_irrelevant_witness :
  feed plain_lower_table [lit "A typical week"; lit "We use Excel"] COVERAGE_AREAS
  = feed plain_lower_table [lit "We use Excel"; lit "A typical week"] COVERAGE_AREAS.
Proof.
  apply feed_order_irrelevant;
    [apply COVERAGE_AREAS_NoDup|apply COVERAGE_AREAS_has_areas|apply perm_swap].
Defined.

Lemma update_coverage_idempotent_witness :
  update_coverage plain_lower_table (lit "A typical week")
    (update_coverage plain_lower_table (lit "A typical week") COVERAGE_AREAS).1
  = ((update_coverage plain_lower_table (lit "A typical week") COVERAGE_AREAS).1, None).
Proof.
  apply update_coverage_idempotent;
    [apply COVERAGE_AREAS_NoDup|apply COVERAGE_AREAS_has_areas].
Defined.

Lemma update_coverage_ignores_case_witness :
  update_coverage plain_lower_table (lit "I use PYTHON") COVERAGE_AREAS
  = update_coverage plain_lower_table (lit "i use python") COVERAGE_AREAS.
Proof.
  apply update_coverage_ignores_case.
  - apply (bool_decide_unpack _). by vm_compute.
  - apply (bool_decide_unpack _). by vm_compute.
  - by vm_compute.
Defined.

Lemma synthesis_failure_records_witness :
  generate_synthesis sample_loads (scripted [Returned (lit "Here: {oops} sorry")]) 0
    (messages (sample_session 3)) (lit "Analyst")
  = ([(lit "error", JStr (lit "JSON parse error: Expecting value"))], 1).
Proof.
  apply (proj2 (synthesis_failure_records sample_loads
                  (scripted [Returned (lit "Here: {oops} sorry")]) 0
                  (messages (sample_session 3)) (lit "Analyst"))
           (lit "Here: ") (lit "oops") (lit " sorry")
           (Exn true (lit "Expecting value"))).
  - reflexivity.
  - apply (bool_decide_unpack _). by vm_compute.
  - apply (bool_decide_unpack _). by vm_compute.
  - by vm_compute.
  - reflexivity.
Defined.

Lemma format_coverage_fallbacks_witness :
  format_coverage COVERAGE_AREAS
  = lit "Explored: None yet. Still need: Core Responsibilities, Technical Skills, Interpersonal Skills, Required Knowledge, Top Performer Traits, Challenges, Specific Examples.".
Proof.
  etrans; [apply (proj1 (format_coverage_fallbacks COVERAGE_AREAS))|by vm_compute].
  repeat constructor.
Defined.

Lemma reset_returns_to_setup_witness :
  interact plain_lower_table sample_loads (scripted []) (Some finished_session) Reset 1
  = Run (Some defaults) 1 [] false None.
Proof. by apply reset_returns_to_setup. Defined.

Lemma setup_screen_ignores_other_events_witness :
  interact plain_lower_table sample_loads (scripted []) (Some defaults)
    (ChatInput (lit "Anyone there?")) 0
  = Run (Some defaults) 0 [] false None.
Proof. by apply setup_screen_ignores_other_events. Defined.

Lemma start_interview_witness :
  interact plain_lower_table sample_loads (scripted []) (Some defaults)
    (StartInterview (lit "  Analyst ") []) 0
  = Run (Some (sample_session 0)) 0 [] false None
  ∧ interact plain_lower_table sample_loads (scripted []) (Some defaults)
      (StartInterview (lit "   ") []) 0
    = Run (Some defaults) 0 [lit "Please enter a job title."] false None.
Proof.
  split.
  - etrans; [by apply start_interview|by vm_compute].
  - etrans; [by apply start_interview|by vm_compute].
Defined.

Lemma complete_session_ignores_chat_witness :
  interact plain_lower_table sample_loads (scripted []) (Some finished_session)
    (ChatInput (lit "One more thing")) 1
  = Run (Some finished_session) 1 [] false None.
Proof. by apply (complete_session_ignores_chat _ _ _ _ _ _ sample_document). Defined.

Lemma chat_turn_effect_witness :
  ∃ st',
    interact plain_lower_table sample_loads (scripted [Returned leaky_reply])
      (Some (sample_session 1)) (ChatInput (lit "I use Excel every week.")) 0
    = Run (Some st') 1 [] false None
    ∧ messages st'
      = messages (sample_session 1)
          ++ [Message user (lit "I use Excel every week.");
              Message assistant (lit "Thanks for sharing.")]
    ∧ is_covered (coverage st') (lit "technical_skills") = true.
Proof.
  eexists. split.
  - apply chat_turn_effect; [reflexivity|reflexivity|by left| |done].
    apply COVERAGE_AREAS_has_areas.
  - split; by vm_compute.
Defined.

Lemma transcript_append_only_witness :
  ∃ st',
    run_state (interact plain_lower_table sample_loads (scripted [])
                 (Some (sample_session 2)) FinishInterview 0) = Some st'
    ∧ messages (sample_session 2) `prefix_of` messages st'
    ∧ exchanges (messages (sample_session 2)) ≤ exchanges (messages st')
    ∧ 0 ≤ run_calls (interact plain_lower_table sample_loads (scripted [])
                       (Some (sample_session 2)) FinishInterview 0).
Proof.
  by apply (transcript_append_only plain_lower_table sample_loads (scripted [])
              (Some (sample_session 2)) FinishInterview 0).
Defined.
